(** * A shallow embedding of tiedye ([tiedye/__init__.py])

    tiedye is a small dependency-injection helper.  An [Application]
    keeps a (weak) dictionary from callables to their declared
    dependencies; an [Injector] owns a table from interfaces (or interface
    types) to provider callables, and [Injector.bind] wraps a callable in
    a [functools.partial] whose keyword arguments are the provided
    dependencies.

    Modelling choices.
    - Python objects used as interfaces and as provider-table keys are
      [obj]: an instance of some class, or a class object.  [type_of] is
      Python's [type()].  Classes are numbered; class [0] is [type] and
      class [1] is [Injector].
    - Callables are [callable]: plain functions, bound methods
      ([types.MethodType]), the [lambda dummy: self] that every injector
      installs for itself, and [functools.partial] objects.  A partial
      object is identified by the injector that allocated it and a serial
      number in that injector's allocation list, so every partial object
      has its own identity, as in Python.
    - Python dicts are association lists with [dget] (lookup of the most
      recent binding) and [dset] (assignment).
    - The behaviour of the user's plain functions is a parameter
      [run_fn]; [None] means the function raised.
    - Exceptions are modelled by a state-and-exception monad in which the
      state reached at the point of the [raise] is kept, as in Python. *)

From Stdlib Require Import String List Bool Arith Lia.
Import ListNotations.
Open Scope list_scope.

(** ** Objects, callables, values *)

Inductive obj : Type :=
| OInst (id : nat) (cls : nat)
| OClass (cls : nat).

Definition type_cls : nat := 0.
Definition Injector_cls : nat := 1.

(** [type(o)] *)
Definition type_of (o : obj) : obj :=
  match o with
  | OInst _ c => OClass c
  | OClass _ => OClass type_cls
  end.

(** The class object [Injector], used as the key of the self provider. *)
Definition Injector : obj := OClass Injector_cls.

Inductive callable : Type :=
| CFn (f : nat)
| CMethod (f : nat) (self : obj)
| CSelfProv (inj : nat)
| CPartial (owner : nat) (serial : nat).

Inductive value : Type :=
| VNone
| VObj (o : obj)
| VInj (i : nat)
| VStr (s : string)
| VPair (a b : value).

Definition obj_eq_dec (x y : obj) : {x = y} + {x <> y}.
Proof. decide equality; apply Nat.eq_dec. Defined.

Definition callable_eq_dec (x y : callable) : {x = y} + {x <> y}.
Proof. decide equality; try apply Nat.eq_dec; apply obj_eq_dec. Defined.

Definition value_eq_dec (x y : value) : {x = y} + {x <> y}.
Proof.
  decide equality; try apply Nat.eq_dec; try apply obj_eq_dec;
  apply string_dec.
Defined.

(** ** Python dicts *)

Section Dict.
Context {K V : Type} (eq_dec : forall x y : K, {x = y} + {x <> y}).

(** [d.get(k)] *)
Fixpoint dget (d : list (K * V)) (k : K) : option V :=
  match d with
  | [] => None
  | (k', v) :: d' => if eq_dec k' k then Some v else dget d' k
  end.

(** [d[k] = v] *)
Definition dset (d : list (K * V)) (k : K) (v : V) : list (K * V) :=
  (k, v) :: filter (fun kv => if eq_dec (fst kv) k then false else true) d.

(** [d.update(e)] *)
Definition dupdate (d e : list (K * V)) : list (K * V) :=
  fold_left (fun acc kv => dset acc (fst kv) (snd kv)) e d.

(** [k in d] *)
Definition dmem (d : list (K * V)) (k : K) : bool :=
  match dget d k with Some _ => true | None => false end.
End Dict.

Arguments dget {K V} eq_dec d k.
Arguments dset {K V} eq_dec d k v.
Arguments dupdate {K V} eq_dec d e.
Arguments dmem {K V} eq_dec d k.

(** Keyword arguments and dependency mappings. *)
Definition kwargs := list (string * value).
Definition deps := list (string * obj).

(** ** Injector state *)

Record injector : Type := mkInjector {
  providers : list (obj * callable);
  currently_binding : list callable;
  bound_funcs : list (callable * callable);
  partials : list (callable * kwargs)   (** partial objects it allocated *)
}.

(** The whole program state: the application's [dependency_map] and the
    injectors created so far, numbered by creation order. *)
Record world : Type := mkWorld {
  dependency_map : list (callable * deps);
  injectors : list injector
}.

Inductive exn : Type :=
| DependencyCycleError (msg : string)
| TypeError
| KeyError
| RuntimeError        (** Python's recursion limit *)
| CallFailed.         (** a user function raised *)

Inductive result (A : Type) : Type :=
| Ok (a : A)
| Raise (e : exn).
Arguments Ok {A} a.
Arguments Raise {A} e.

Definition M (A : Type) : Type := world -> world * result A.

Definition ret {A} (a : A) : M A := fun w => (w, Ok a).
Definition raise {A} (e : exn) : M A := fun w => (w, Raise e).
Definition mbind {A B} (m : M A) (k : A -> M B) : M B :=
  fun w => match m w with
           | (w', Ok a) => k a w'
           | (w', Raise e) => (w', Raise e)
           end.

Notation "x <- m ;; k" := (mbind m (fun x => k))
  (at level 61, m at next level, right associativity).
Notation "m ;; k" := (mbind m (fun _ => k))
  (at level 61, right associativity).

Fixpoint set_nth {A} (l : list A) (n : nat) (x : A) : list A :=
  match l, n with
  | [], _ => []
  | _ :: l', 0 => x :: l'
  | y :: l', S n' => y :: set_nth l' n' x
  end.

Definition get_inj (i : nat) : M injector :=
  fun w => match nth_error (injectors w) i with
           | Some s => (w, Ok s)
           | None => (w, Raise KeyError)
           end.

Definition modify_inj (i : nat) (f : injector -> injector) : M unit :=
  fun w => match nth_error (injectors w) i with
           | Some s => (mkWorld (dependency_map w) (set_nth (injectors w) i (f s)),
                        Ok tt)
           | None => (w, Raise KeyError)
           end.

Definition get_world : M world := fun w => (w, Ok w).

Definition with_binding (s : injector) (cb : list callable) : injector :=
  mkInjector (providers s) cb (bound_funcs s) (partials s).
Definition with_memo (s : injector) (m : list (callable * callable)) : injector :=
  mkInjector (providers s) (currently_binding s) m (partials s).

Definition callable_memb (x : callable) (l : list callable) : bool :=
  existsb (fun c => if callable_eq_dec c x then true else false) l.

(** [set.add] *)
Definition set_add (x : callable) (l : list callable) : list callable :=
  if callable_memb x l then l else x :: l.

(** [str.join]: every element must be a [str]; a callable never is. *)
Definition callable_as_str (c : callable) : option string := None.

Fixpoint py_join (sep : string) (l : list callable) : option string :=
  match l with
  | [] => Some EmptyString
  | [c] => callable_as_str c
  | c :: l' =>
      match callable_as_str c, py_join sep l' with
      | Some s, Some t => Some (s ++ sep ++ t)%string
      | _, _ => None
      end
  end.

(** ** [Application.dependencies] *)

(** What a call of [Application.dependencies] returns: [None], or the
    inner [register] closure for a given mapping. *)
Inductive dep_ret : Type :=
| RetNone
| RetRegister (mapping : deps).

(** The inner [register(callable)]. *)
Definition register (mapping : deps) (c : callable) : M callable :=
  fun w => (mkWorld (dset callable_eq_dec (dependency_map w) c mapping)
                    (injectors w), Ok c).

(** [Application.dependencies(self, *args, **mapping)] *)
Definition dependencies (args : list callable) (mapping : deps) : M dep_ret :=
  match args with
  | [c] => register mapping c ;; ret RetNone
  | [] => ret (RetRegister mapping)
  | _ => raise TypeError
  end.

(** Calling the [register] closure with positional arguments [args]. *)
Definition call_register (mapping : deps) (args : list callable) : M callable :=
  match args with
  | [c] => register mapping c
  | _ => raise TypeError
  end.

(** ** The provider lookup of [Injector.bind] (lines 159-170) *)

Definition find_provider (tbl : list (obj * callable)) (interface : obj)
  : option callable :=
  let interface_type := type_of interface in
  if dmem obj_eq_dec tbl interface then dget obj_eq_dec tbl interface
  else if dmem obj_eq_dec tbl interface_type
       then dget obj_eq_dec tbl interface_type
       else None.

Definition lookup_func_of (func : callable) : callable :=
  match func with
  | CMethod f _ => CFn f   (* func.im_func *)
  | _ => func
  end.

Definition partial_entry (w : world) (j n : nat) : option (callable * kwargs) :=
  match nth_error (injectors w) j with
  | Some s => nth_error (partials s) n
  | None => None
  end.

(** Allocation of [functools.partial(func, **kwargs)] by injector [i]. *)
Definition new_partial (i : nat) (func : callable) (kw : kwargs) : M callable :=
  fun w => match nth_error (injectors w) i with
           | Some s =>
               (mkWorld (dependency_map w)
                  (set_nth (injectors w) i
                     (mkInjector (providers s) (currently_binding s)
                        (bound_funcs s) (partials s ++ [(func, kw)]))),
                Ok (CPartial i (length (partials s))))
           | None => (w, Raise KeyError)
           end.

Section Code.
(** The behaviour of the program's plain functions: [run_fn f args kw]
    is the result of [f( *args, **kw)], [None] when it raises. *)
Variable run_fn : nat -> list value -> kwargs -> option value.

(** Calling a callable; calling a partial object merges its stored
    keywords with the caller's ([keywords.update(kw)]).  [fuel] bounds
    the depth of nested partial objects (Python's recursion limit). *)
Fixpoint call_fuel (fuel : nat) (w : world) (c : callable)
         (args : list value) (kw : kwargs) : option value :=
  match c with
  | CFn f => run_fn f args kw
  | CMethod f self => run_fn f (VObj self :: args) kw
  | CSelfProv j =>                       (* lambda dummy: self *)
      match args, kw with
      | [_], [] => Some (VInj j)
      | _, _ => None
      end
  | CPartial j n =>
      match fuel with
      | 0 => None
      | S fuel' =>
          match partial_entry w j n with
          | Some (c', kw0) =>
              call_fuel fuel' w c' args (dupdate string_dec kw0 kw)
          | None => None
          end
      end
  end.

Definition invoke (fuel : nat) (c : callable) (args : list value) (kw : kwargs)
  : M value :=
  fun w => match call_fuel fuel w c args kw with
           | Some v => (w, Ok v)
           | None => (w, Raise CallFailed)
           end.

(** The loop of lines 158-176; [bindf] is the recursive [self.bind]. *)
Fixpoint resolve_deps (fuel : nat) (bindf : callable -> M callable) (i : nat)
         (ds : deps) (kw : kwargs) (unprovided : deps) : M (kwargs * deps) :=
  match ds with
  | [] => ret (kw, unprovided)
  | (arg_name, interface) :: rest =>
      self <- get_inj i ;;
      match find_provider (providers self) interface with
      | None =>
          resolve_deps fuel bindf i rest kw
            (dset string_dec unprovided arg_name interface)
      | Some provider =>
          provider' <- bindf provider ;;
          v <- invoke fuel provider' [VObj interface] [] ;;
          resolve_deps fuel bindf i rest (dset string_dec kw arg_name v)
            unprovided
      end
  end.

(** [Injector.bind] of injector number [i]. *)
Fixpoint bind (fuel : nat) (i : nat) (func : callable) {struct fuel}
  : M callable :=
  self <- get_inj i ;;
  match dget callable_eq_dec (bound_funcs self) func with
  | Some injected => ret injected
  | None =>
      match fuel with
      | 0 => raise RuntimeError
      | S fuel' =>
          let lookup_func := lookup_func_of func in
          if callable_memb lookup_func (currently_binding self) then
            match py_join ", "%string (currently_binding self) with
            | Some names =>
                raise (DependencyCycleError
                  ("Dependency cycle between the following callables: "
                     ++ names)%string)
            | None => raise TypeError
            end
          else
            modify_inj i (fun s =>
              with_binding s (set_add lookup_func (currently_binding s))) ;;
            w <- get_world ;;
            let ds := match dget callable_eq_dec (dependency_map w) lookup_func with
                      | Some d => d
                      | None => []          (* EMPTY_DEPS *)
                      end in
            r <- resolve_deps fuel' (bind fuel' i) i ds [] [] ;;
            let '(kw, unprovided) := r in
            self' <- get_inj i ;;
            (if callable_memb lookup_func (currently_binding self')
             then modify_inj i (fun s =>
                    with_binding s
                      (remove callable_eq_dec lookup_func (currently_binding s)))
             else raise KeyError) ;;
            injected <- new_partial i func kw ;;
            (if 0 <? length unprovided
             then dependencies [injected] unprovided ;; ret tt
             else ret tt) ;;
            modify_inj i (fun s =>
              with_memo s (dset callable_eq_dec (bound_funcs s) func injected)) ;;
            ret injected
      end
  end.
End Code.

(** ** Provider sets, [Injector.__init__], [make_injector], [specialize] *)

(** A function decorated with [@ProviderSet.provide( *interfaces, **deps)]. *)
Record provider_impl : Type := mkProviderImpl {
  impl_fn : nat;
  provider_interfaces : list obj;
  provider_dependencies : deps
}.

(** An instance of a [ProviderSet] subclass and its [providers] set. *)
Record provider_set : Type := mkProviderSet {
  ps_self : obj;
  ps_providers : list provider_impl
}.

(** Lines 80-97: for each provider of each provider set, register its
    dependencies and enter the bound method under each of its
    interfaces. *)
Fixpoint add_impls (ps : obj) (impls : list provider_impl)
         (tbl : list (obj * callable)) : M (list (obj * callable)) :=
  match impls with
  | [] => ret tbl
  | impl :: rest =>
      dependencies [CFn (impl_fn impl)] (provider_dependencies impl) ;;
      let inst_provider_impl := CMethod (impl_fn impl) ps in
      let tbl' := fold_left (fun t interface => dset obj_eq_dec t interface inst_provider_impl)
                    (provider_interfaces impl) tbl in
      add_impls ps rest tbl'
  end.

Fixpoint add_sets (sets : list provider_set) (tbl : list (obj * callable))
  : M (list (obj * callable)) :=
  match sets with
  | [] => ret tbl
  | ps :: rest =>
      tbl' <- add_impls (ps_self ps) (ps_providers ps) tbl ;;
      add_sets rest tbl'
  end.

Definition alloc_injector (s : injector) : M unit :=
  fun w => (mkWorld (dependency_map w) (injectors w ++ [s]), Ok tt).

(** [Injector(app, provider_sets, local_providers)]; returns the number of
    the new injector. *)
Definition Injector_init (provider_sets : list provider_set)
           (local_providers : option (list (obj * callable))) : M nat :=
  w <- get_world ;;
  let self := length (injectors w) in
  tbl <- add_sets provider_sets [] ;;
  let tbl := match local_providers with
             | Some l => dupdate obj_eq_dec tbl l
             | None => tbl
             end in
  let tbl := dset obj_eq_dec tbl Injector (CSelfProv self) in
  alloc_injector (mkInjector tbl [] [] []) ;;
  ret self.

(** [Application.make_injector( *provider_sets, local_providers=...)] *)
Definition make_injector (provider_sets : list provider_set)
           (local_providers : option (list (obj * callable))) : M nat :=
  Injector_init provider_sets local_providers.

(** [Injector.specialize( *provider_sets, local_providers=...)] of injector [i]. *)
Definition specialize (i : nat) (provider_sets : list provider_set)
           (local_providers : option (list (obj * callable))) : M nat :=
  self <- get_inj i ;;
  let new_providers := providers self in
  let new_providers := match local_providers with
                       | Some l => dupdate obj_eq_dec new_providers l
                       | None => new_providers
                       end in
  Injector_init provider_sets (Some new_providers).


Definition empty_world : world := mkWorld [] [].

(** ** [make_interface] and [make_interface_enum] *)

Module Interfaces.










End Interfaces.

(** ** [ProviderSetMeta] *)

Module ProviderSets.

(** A value of a class body, as [ProviderSetMeta.__new__] sees it: a
    callable without the provider attributes (a plain function, a nested
    class, ...), a function decorated with [@ProviderSet.provide], which
    carries [provider_interfaces] and [provider_dependencies], or a value
    that is not callable (a constant, a [staticmethod] object). *)
Inductive member : Type :=
| MFunc (f : nat)
| MProvider (p : provider_impl)
| MData.

Definition deps_eq_dec (x y : deps) : {x = y} + {x <> y}.
Proof.
  apply list_eq_dec; intros [a b] [c d].
  destruct (string_dec a c); destruct (obj_eq_dec b d); subst; auto; right; congruence.
Defined.

Definition provider_impl_eq_dec (x y : provider_impl) : {x = y} + {x <> y}.
Proof.
  decide equality; [apply deps_eq_dec|apply (list_eq_dec obj_eq_dec)|apply Nat.eq_dec].
Defined.

(** [s.add(p)] on a set of functions; a decorated function is its number
    with its two attributes. *)
Definition pset_add (p : provider_impl) (s : list provider_impl) : list provider_impl :=
  if existsb (fun q => if provider_impl_eq_dec q p then true else false) s then s
  else s ++ [p].

(** [s.update(l)] *)
Definition pset_update (s l : list provider_impl) : list provider_impl :=
  fold_left (fun acc p => pset_add p acc) l s.

(** [ProviderSetMeta.__new__(self, name, bases, dict)]: the [providers] set
    the new class gets as its attribute [providers].  A base is given by
    [getattr(base_type, "providers", None)]; the class body [dict] by its
    items.  The order of the list is the iteration order of the set, which
    Python leaves unspecified. *)
Definition meta_providers (bases : list (option (list provider_impl)))
           (body : list (string * member)) : list provider_impl :=
  let providers :=
    fold_left (fun acc base_type_providers =>
                 match base_type_providers with
                 | Some l => pset_update acc l
                 | None => acc
                 end) bases [] in
  fold_left (fun acc nm =>
               match snd nm with
               | MProvider p => pset_add p acc      (* callable, has provider_interfaces *)
               | MFunc _ | MData => acc
               end) body providers.

End ProviderSets.

(** * Proofs *)

(** ** Dictionaries and list updates *)

Section DictFacts.
Context {K V : Type} (eq_dec : forall x y : K, {x = y} + {x <> y}).

Lemma dget_dset_eq (d : list (K * V)) k v : dget eq_dec (dset eq_dec d k v) k = Some v.
Proof. unfold dset; simpl; destruct (eq_dec k k); congruence. Qed.

Lemma dget_filter_neq (d : list (K * V)) k k' :
  k <> k' ->
  dget eq_dec (filter (fun kv => if eq_dec (fst kv) k then false else true) d) k'
  = dget eq_dec d k'.
Proof.
  intros Hne; induction d as [|[a b] d IH]; simpl; auto.
  destruct (eq_dec a k) as [->|Hak]; simpl.
  - destruct (eq_dec k k'); [congruence|auto].
  - destruct (eq_dec a k'); auto.
Qed.

Lemma dget_dset_neq (d : list (K * V)) k k' v :
  k <> k' -> dget eq_dec (dset eq_dec d k v) k' = dget eq_dec d k'.
Proof.
  intros Hne; unfold dset; simpl; destruct (eq_dec k k'); [congruence|].
  now apply dget_filter_neq.
Qed.

Lemma dget_dset (d : list (K * V)) k k' v :
  dget eq_dec (dset eq_dec d k v) k' = if eq_dec k k' then Some v else dget eq_dec d k'.
Proof.
  destruct (eq_dec k k') as [<-|Hne]; [apply dget_dset_eq|now apply dget_dset_neq].
Qed.

Lemma dget_In (d : list (K * V)) k v : dget eq_dec d k = Some v -> In (k, v) d.
Proof.
  induction d as [|[a b] d IH]; simpl; [discriminate|].
  destruct (eq_dec a k) as [->|]; [intros [= ->]; auto|auto].
Qed.

Lemma In_dset (d : list (K * V)) k v k' v' :
  In (k', v') (dset eq_dec d k v) -> (k', v') = (k, v) \/ In (k', v') d.
Proof.
  unfold dset; simpl; intros [H|H]; [auto|right].
  apply filter_In in H; tauto.
Qed.

(** [d.update(e)] for an [e] with distinct keys: [e]'s entries win. *)
Lemma dget_dupdate (d e : list (K * V)) k :
  NoDup (map fst e) ->
  dget eq_dec (dupdate eq_dec d e) k =
    match dget eq_dec e k with Some v => Some v | None => dget eq_dec d k end.
Proof.
  unfold dupdate; revert d; induction e as [|[a b] e IH]; intros d Hnd; simpl; auto.
  inversion Hnd as [|? ? Hnin Hnd']; subst.
  rewrite IH by assumption.
  destruct (eq_dec a k) as [->|Hak].
  - rewrite dget_dset_eq.
    destruct (dget eq_dec e k) eqn:He; auto.
    exfalso; apply Hnin. apply dget_In in He.
    change k with (fst (k, v)); now apply in_map.
  - rewrite dget_dset_neq by assumption; reflexivity.
Qed.

Lemma In_dupdate (d e : list (K * V)) k v :
  In (k, v) (dupdate eq_dec d e) -> In (k, v) d \/ In (k, v) e.
Proof.
  unfold dupdate; revert d; induction e as [|[a b] e IH]; intros d H; simpl in *; auto.
  apply IH in H as [H|H]; auto.
  apply In_dset in H as [H|H]; auto.
Qed.

Lemma dmem_true (d : list (K * V)) k :
  dmem eq_dec d k = true <-> exists v, dget eq_dec d k = Some v.
Proof.
  unfold dmem; destruct (dget eq_dec d k); split; eauto; try discriminate.
  intros [? ?]; discriminate.
Qed.
End DictFacts.

Lemma nth_error_set_nth_eq {A} (l : list A) i x :
  i < length l -> nth_error (set_nth l i x) i = Some x.
Proof.
  revert i; induction l as [|y l IH]; intros [|i] Hi; simpl in *; try lia; auto.
  apply IH; lia.
Qed.

Lemma nth_error_set_nth_neq {A} (l : list A) i j x :
  j <> i -> nth_error (set_nth l i x) j = nth_error l j.
Proof.
  revert i j; induction l as [|y l IH]; intros [|i] [|j] Hne; simpl; auto; try lia;
    destruct l; auto; apply IH; lia.
Qed.

Lemma length_set_nth {A} (l : list A) i x : length (set_nth l i x) = length l.
Proof. revert i; induction l; intros [|i]; simpl; auto. Qed.

Lemma nth_error_set_nth {A} (l : list A) i j x y :
  nth_error l i = Some y ->
  nth_error (set_nth l i x) j = if Nat.eq_dec i j then Some x else nth_error l j.
Proof.
  intros Hy; destruct (Nat.eq_dec i j) as [<-|Hne].
  - apply nth_error_set_nth_eq, nth_error_Some; congruence.
  - apply nth_error_set_nth_neq; auto.
Qed.

Lemma callable_memb_In x l : callable_memb x l = true <-> In x l.
Proof.
  unfold callable_memb; rewrite existsb_exists; split.
  - intros [c [Hc Heq]]; destruct (callable_eq_dec c x); [subst; auto|discriminate].
  - intros H; exists x; split; auto; destruct (callable_eq_dec x x); congruence.
Qed.

(** ** The frame of [bind]: what one call can change *)

Definition prefix {A} (l1 l2 : list A) : Prop := exists l, l2 = l1 ++ l.

Definition reg_get (w : world) (k : callable) : option deps :=
  dget callable_eq_dec (dependency_map w) k.

Definition memo_get (s : injector) (k : callable) : option callable :=
  dget callable_eq_dec (bound_funcs s) k.

(** A callable that refers to an allocated object. *)
Definition exists_in (w : world) (c : callable) : Prop :=
  match c with
  | CPartial j n =>
      exists s, nth_error (injectors w) j = Some s /\ n < length (partials s)
  | _ => True
  end.

(** A partial object that injector [i] has not allocated yet. *)
Definition fresh_key (i : nat) (w : world) (k : callable) : Prop :=
  exists n s, k = CPartial i n /\ nth_error (injectors w) i = Some s /\
              length (partials s) <= n.

(** [Step i w w']: [w'] differs from [w] only as a [bind] of injector [i]
    may change it. *)
Definition Step (i : nat) (w w' : world) : Prop :=
  length (injectors w') = length (injectors w) /\
  (forall j, j <> i -> nth_error (injectors w') j = nth_error (injectors w) j) /\
  (forall s, nth_error (injectors w) i = Some s ->
     exists s', nth_error (injectors w') i = Some s' /\
       providers s' = providers s /\
       prefix (partials s) (partials s') /\
       (forall k b, memo_get s k = Some b -> memo_get s' k = Some b)) /\
  (forall k, reg_get w' k <> reg_get w k -> fresh_key i w k).

(** Well-formed states: every injector provides itself, refers only to
    allocated objects, and memoises partial objects it allocated for the
    key it memoises them under. *)
Definition inj_wf (w : world) (j : nat) (s : injector) : Prop :=
  dget obj_eq_dec (providers s) Injector = Some (CSelfProv j) /\
  (forall k p, In (k, p) (providers s) -> exists_in w p) /\
  (forall n c kw, nth_error (partials s) n = Some (c, kw) -> exists_in w c) /\
  (forall k b, memo_get s k = Some b ->
     exists n kw, b = CPartial j n /\ nth_error (partials s) n = Some (k, kw)).

Definition wf (w : world) : Prop :=
  (forall j s, nth_error (injectors w) j = Some s -> inj_wf w j s) /\
  (forall k d, In (k, d) (dependency_map w) -> exists_in w k).

Definition opt_deps_eq_dec (x y : option deps) : {x = y} + {x <> y}.
Proof.
  decide equality; apply list_eq_dec; intros [x1 y1] [x2 y2].
  destruct (string_dec x1 x2); destruct (obj_eq_dec y1 y2); subst; auto;
    right; congruence.
Defined.

Lemma Step_refl i w : Step i w w.
Proof.
  repeat split; auto.
  - intros s Hs; exists s; repeat split; auto. exists []; now rewrite app_nil_r.
  - intros k H; congruence.
Qed.

Lemma prefix_trans {A} (l1 l2 l3 : list A) : prefix l1 l2 -> prefix l2 l3 -> prefix l1 l3.
Proof. intros [a ->] [b ->]; exists (a ++ b); now rewrite app_assoc. Qed.

Lemma prefix_length {A} (l1 l2 : list A) : prefix l1 l2 -> length l1 <= length l2.
Proof. intros [a ->]; rewrite length_app; lia. Qed.

Lemma prefix_nth {A} (l1 l2 : list A) n x :
  prefix l1 l2 -> nth_error l1 n = Some x -> nth_error l2 n = Some x.
Proof.
  intros [a ->] H; rewrite nth_error_app1; auto.
  apply nth_error_Some; congruence.
Qed.

Lemma Step_trans i w1 w2 w3 : Step i w1 w2 -> Step i w2 w3 -> Step i w1 w3.
Proof.
  intros (L1 & O1 & I1 & R1) (L2 & O2 & I2 & R2); repeat split.
  - congruence.
  - intros j Hj; rewrite O2, O1; auto.
  - intros s Hs; destruct (I1 s Hs) as (s2 & Hs2 & P2 & X2 & M2).
    destruct (I2 s2 Hs2) as (s3 & Hs3 & P3 & X3 & M3).
    exists s3; repeat split; auto; [congruence| eapply prefix_trans; eauto].
  - intros k Hk.
    destruct (opt_deps_eq_dec (reg_get w2 k) (reg_get w1 k)) as [E|E].
    + rewrite <- E in Hk. destruct (R2 k Hk) as (n & s2 & -> & Hs2 & Hn).
      destruct (nth_error (injectors w1) i) as [s1|] eqn:Hs1.
      * destruct (I1 s1 eq_refl) as (s2' & Hs2' & _ & X & _).
        rewrite Hs2 in Hs2'; injection Hs2' as <-.
        exists n, s1; repeat split; auto.
        apply prefix_length in X; lia.
      * apply nth_error_None in Hs1; rewrite <- L1 in Hs1.
        apply nth_error_None in Hs1; congruence.
    + now apply R1.
Qed.


Lemma fresh_not_exists i w k : fresh_key i w k -> ~ exists_in w k.
Proof.
  intros (n & s & -> & Hs & Hn) Hex; simpl in Hex.
  destruct Hex as (s' & Hs' & Hn'); rewrite Hs in Hs'; injection Hs' as <-; lia.
Qed.

Lemma reg_get_Step i w w' k :
  Step i w w' -> exists_in w k -> reg_get w' k = reg_get w k.
Proof.
  intros (_ & _ & _ & R) Hk.
  destruct (opt_deps_eq_dec (reg_get w' k) (reg_get w k)) as [E|E]; auto.
  exfalso; eapply fresh_not_exists; eauto.
Qed.

(** [Ext w w']: every injector of [w] is still there in [w'] and has only
    allocated more partial objects. *)
Definition Ext (w w' : world) : Prop :=
  forall j s, nth_error (injectors w) j = Some s ->
    exists s', nth_error (injectors w') j = Some s' /\ prefix (partials s) (partials s').

Lemma Ext_refl w : Ext w w.
Proof. intros j s Hs; exists s; split; auto; exists []; now rewrite app_nil_r. Qed.

Lemma Ext_trans w1 w2 w3 : Ext w1 w2 -> Ext w2 w3 -> Ext w1 w3.
Proof.
  intros E1 E2 j s Hs; destruct (E1 j s Hs) as (s2 & Hs2 & X2).
  destruct (E2 j s2 Hs2) as (s3 & Hs3 & X3); exists s3; split; auto.
  eapply prefix_trans; eauto.
Qed.

Lemma Step_Ext i w w' : Step i w w' -> Ext w w'.
Proof.
  intros (L & O & I & _) j s Hs.
  destruct (Nat.eq_dec j i) as [->|Hne].
  - destruct (I s Hs) as (s' & Hs' & _ & X & _); eauto.
  - exists s; rewrite O by auto; split; auto; exists []; now rewrite app_nil_r.
Qed.

Lemma exists_in_Ext w w' c : Ext w w' -> exists_in w c -> exists_in w' c.
Proof.
  intros E; destruct c as [| | |j n]; simpl; auto.
  intros (s & Hs & Hn); destruct (E j s Hs) as (s' & Hs' & X).
  exists s'; split; auto; apply prefix_length in X; lia.
Qed.

Lemma partial_entry_Ext w w' j n e :
  Ext w w' -> partial_entry w j n = Some e -> partial_entry w' j n = Some e.
Proof.
  unfold partial_entry; intros E.
  destruct (nth_error (injectors w) j) as [s|] eqn:Hs; [|discriminate].
  destruct (E j s Hs) as (s' & -> & X); now apply prefix_nth.
Qed.

Lemma inj_wf_Ext w w' j s : Ext w w' -> inj_wf w j s -> inj_wf w' j s.
Proof.
  intros E (H1 & H2 & H3 & H4); repeat split; auto.
  - intros k p Hk; eapply exists_in_Ext; eauto.
  - intros n c kw Hn; eapply exists_in_Ext; eauto.
Qed.

Lemma dget_exists_in w s j k p :
  inj_wf w j s -> dget obj_eq_dec (providers s) k = Some p -> exists_in w p.
Proof. intros (_ & H & _) Hk; eapply H, dget_In; eauto. Qed.

Lemma find_provider_In tbl x p :
  find_provider tbl x = Some p -> exists k, In (k, p) tbl.
Proof.
  unfold find_provider.
  destruct (dmem obj_eq_dec tbl x); [intros H; exists x; now apply (dget_In obj_eq_dec)|].
  destruct (dmem obj_eq_dec tbl (type_of x)); [|discriminate].
  intros H; exists (type_of x); now apply (dget_In obj_eq_dec).
Qed.

Section Frame.
Variable run_fn : nat -> list value -> kwargs -> option value.

Lemma call_Ext fuel w w' c args kw v :
  Ext w w' -> call_fuel run_fn fuel w c args kw = Some v ->
  call_fuel run_fn fuel w' c args kw = Some v.
Proof.
  intros E; revert c args kw; induction fuel as [|fuel IH]; intros c args kw;
    destruct c as [| | |j n]; simpl; auto; try discriminate.
  destruct (partial_entry w j n) as [[c' kw0]|] eqn:He; [|discriminate].
  rewrite (partial_entry_Ext w w' j n _ E He); apply IH.
Qed.
End Frame.
Lemma Ext_set_nth w i s s' :
  nth_error (injectors w) i = Some s -> prefix (partials s) (partials s') ->
  Ext w (mkWorld (dependency_map w) (set_nth (injectors w) i s')).
Proof.
  intros Hs X j t Ht; simpl.
  destruct (Nat.eq_dec i j) as [<-|Hne].
  - rewrite Hs in Ht; injection Ht as <-. exists s'; split; auto.
    apply nth_error_set_nth_eq, nth_error_Some; congruence.
  - exists t; rewrite nth_error_set_nth_neq by auto; split; auto.
    exists []; now rewrite app_nil_r.
Qed.

Lemma Step_set_nth w i s s' :
  nth_error (injectors w) i = Some s -> providers s' = providers s ->
  prefix (partials s) (partials s') ->
  (forall k b, memo_get s k = Some b -> memo_get s' k = Some b) ->
  Step i w (mkWorld (dependency_map w) (set_nth (injectors w) i s')).
Proof.
  intros Hs P X Mm; repeat split; simpl.
  - apply length_set_nth.
  - intros j Hj; apply nth_error_set_nth_neq; auto.
  - intros t Ht; rewrite Hs in Ht; injection Ht as <-.
    exists s'; repeat split; auto.
    apply nth_error_set_nth_eq, nth_error_Some; congruence.
  - intros k Hk; unfold reg_get in Hk; simpl in Hk; congruence.
Qed.

Lemma wf_set_nth w i s s' :
  wf w -> nth_error (injectors w) i = Some s -> prefix (partials s) (partials s') ->
  inj_wf (mkWorld (dependency_map w) (set_nth (injectors w) i s')) i s' ->
  wf (mkWorld (dependency_map w) (set_nth (injectors w) i s')).
Proof.
  intros [Wi Wr] Hs X Hw'.
  pose proof (Ext_set_nth w i s s' Hs X) as E.
  split; simpl.
  - intros j t Ht. destruct (Nat.eq_dec i j) as [<-|Hne].
    + rewrite nth_error_set_nth_eq in Ht; [congruence|].
      apply nth_error_Some; congruence.
    + rewrite nth_error_set_nth_neq in Ht by auto.
      eapply inj_wf_Ext; eauto.
  - intros k d Hk; eapply exists_in_Ext; eauto.
Qed.

Lemma with_binding_step w i s cb :
  nth_error (injectors w) i = Some s ->
  let w' := mkWorld (dependency_map w) (set_nth (injectors w) i (with_binding s cb)) in
  Step i w w' /\ (wf w -> wf w').
Proof.
  intros Hs w'; split.
  - apply Step_set_nth with s; auto. exists []; now rewrite app_nil_r.
  - intros Hw; apply wf_set_nth with s; auto; [exists []; now rewrite app_nil_r|].
    apply inj_wf_Ext with w; [apply Ext_set_nth with s; auto; exists []; now rewrite app_nil_r|].
    destruct Hw as [Wi _]; apply Wi in Hs as (H1 & H2 & H3 & H4).
    repeat split; auto.
Qed.

Section ResolveFrame.
Variable run_fn : nat -> list value -> kwargs -> option value.

Definition bind_post (i : nat) (f : callable) (w w' : world) (r : result callable) : Prop :=
  Step i w w' /\ wf w' /\
  (forall b, r = Ok b -> exists_in w' b /\
     exists s', nth_error (injectors w') i = Some s' /\ memo_get s' f = Some b).

Lemma resolve_frame fuel i (bindf : callable -> M callable) ds kw unp w w' r :
  (forall f w w' r, bindf f w = (w', r) -> wf w -> exists_in w f -> bind_post i f w w' r) ->
  resolve_deps run_fn fuel bindf i ds kw unp w = (w', r) -> wf w -> Step i w w' /\ wf w'.
Proof.
  intros HB; revert kw unp w; induction ds as [|[n x] ds IH]; intros kw unp w Hr Hw; simpl in Hr.
  - injection Hr as <- _; split; [apply Step_refl|auto].
  - unfold mbind, get_inj in Hr.
    destruct (nth_error (injectors w) i) as [s|] eqn:Hs;
      [|injection Hr as <- _; split; [apply Step_refl|auto]].
    destruct (find_provider (providers s) x) as [p|] eqn:Hp; [|eapply IH; eauto].
    destruct (bindf p w) as [w1 [b|e]] eqn:Hb.
    + assert (Hex : exists_in w p).
      { destruct (find_provider_In _ _ _ Hp) as [k Hk].
        destruct Hw as [Wi _]; destruct (Wi i s Hs) as (_ & H2 & _); eauto. }
      destruct (HB p w w1 (Ok b) Hb Hw Hex) as (S1 & W1 & _).
      unfold invoke in Hr.
      destruct (call_fuel run_fn fuel w1 b [VObj x] []) as [v|].
      * destruct (IH _ _ _ Hr W1) as [S2 W2]; split; auto; eapply Step_trans; eauto.
      * injection Hr as <- _; auto.
    + assert (Hex : exists_in w p).
      { destruct (find_provider_In _ _ _ Hp) as [k Hk].
        destruct Hw as [Wi _]; destruct (Wi i s Hs) as (_ & H2 & _); eauto. }
      destruct (HB p w w1 (Raise e) Hb Hw Hex) as (S1 & W1 & _).
      injection Hr as <- _; auto.
Qed.
End ResolveFrame.

Lemma set_nth_set_nth {A} (l : list A) i x y : set_nth (set_nth l i x) i y = set_nth l i y.
Proof. revert i; induction l; intros [|i]; simpl; f_equal; auto. Qed.
Section BindFrame.
Variable run_fn : nat -> list value -> kwargs -> option value.

Lemma bind_post_raise i f w w' e : Step i w w' -> wf w' -> bind_post i f w w' (Raise e).
Proof. intros S W; split; [auto|split; [auto|discriminate]]. Qed.

Lemma bind_post_memo i f w s b :
  wf w -> nth_error (injectors w) i = Some s -> memo_get s f = Some b ->
  bind_post i f w w (Ok b).
Proof.
  intros Hw Hs Hm; split; [apply Step_refl|split; [auto|]].
  intros b' [= <-]; split; [|eauto].
  destruct Hw as [Wi _]; destruct (Wi i s Hs) as (_ & _ & _ & H4).
  destruct (H4 f b Hm) as (n & kw & -> & Hn); simpl.
  exists s; split; auto; apply nth_error_Some; congruence.
Qed.

Lemma finish_post w w2 i f s s2 s5 kw reg' :
  Step i w w2 -> wf w2 -> nth_error (injectors w) i = Some s ->
  nth_error (injectors w2) i = Some s2 -> memo_get s f = None -> exists_in w f ->
  providers s5 = providers s2 -> partials s5 = partials s2 ++ [(f, kw)] ->
  bound_funcs s5 = dset callable_eq_dec (bound_funcs s2) f (CPartial i (length (partials s2))) ->
  (forall k, k <> CPartial i (length (partials s2)) ->
     dget callable_eq_dec reg' k = dget callable_eq_dec (dependency_map w2) k) ->
  (forall k d, In (k, d) reg' -> k = CPartial i (length (partials s2)) \/
                                 In (k, d) (dependency_map w2)) ->
  bind_post i f w (mkWorld reg' (set_nth (injectors w2) i s5))
    (Ok (CPartial i (length (partials s2)))).
Proof.
  intros S W Hs Hs2 Hm Hf P5 X5 M5 Rg1 Rg2.
  set (n := length (partials s2)) in *.
  set (w' := mkWorld reg' (set_nth (injectors w2) i s5)).
  assert (Hlt : i < length (injectors w2)) by (apply nth_error_Some; congruence).
  assert (Hi' : nth_error (injectors w') i = Some s5)
    by (apply nth_error_set_nth_eq; auto).
  assert (X25 : prefix (partials s2) (partials s5)) by (rewrite X5; eexists; eauto).
  assert (E2 : Ext w2 w').
  { intros j t Ht. destruct (Nat.eq_dec i j) as [<-|Hne].
    - rewrite Hs2 in Ht; injection Ht as <-; eauto.
    - exists t; simpl; rewrite nth_error_set_nth_neq by auto; split; auto.
      exists []; now rewrite app_nil_r. }
  destruct S as (L & O & I & R).
  destruct (I s Hs) as (s2' & Hs2' & P2 & X2 & M2).
  rewrite Hs2 in Hs2'; injection Hs2' as <-.
  assert (S' : Step i w w').
  { repeat split.
    - simpl; rewrite length_set_nth; auto.
    - intros j Hj; simpl; rewrite nth_error_set_nth_neq by auto; auto.
    - intros t Ht; rewrite Hs in Ht; injection Ht as <-.
      exists s5; repeat split; auto; [congruence|eapply prefix_trans; eauto|].
      intros k b Hk. unfold memo_get; rewrite M5.
      destruct (callable_eq_dec f k) as [<-|Hne]; [congruence|].
      rewrite dget_dset_neq by auto; now apply M2.
    - intros k Hk. unfold reg_get in Hk; simpl in Hk.
      destruct (callable_eq_dec k (CPartial i n)) as [->|Hne].
      + exists n, s; repeat split; auto. apply prefix_length in X2; lia.
      + rewrite Rg1 in Hk by auto; now apply R. }
  split; [exact S'|split].
  - destruct W as [Wi Wr]; split.
    + intros j t Ht. destruct (Nat.eq_dec i j) as [<-|Hne].
      * rewrite Hi' in Ht; injection Ht as <-.
        destruct (Wi i s2 Hs2) as (H1 & H2 & H3 & H4); repeat split.
        -- now rewrite P5.
        -- intros k p Hk; rewrite P5 in Hk; eapply exists_in_Ext; eauto.
        -- intros m c kw' Hm'; rewrite X5 in Hm'.
           destruct (Nat.lt_ge_cases m n) as [Hmn|Hmn].
           ++ rewrite nth_error_app1 in Hm' by auto; eapply exists_in_Ext; eauto.
           ++ rewrite nth_error_app2 in Hm' by auto.
              apply nth_error_In in Hm'; destruct Hm' as [[= <- _]|[]].

              eapply exists_in_Ext; [|eauto].
              apply Step_Ext with i; auto.
        -- intros k b Hk; unfold memo_get in Hk; rewrite M5 in Hk.
           destruct (callable_eq_dec f k) as [<-|Hne].
           ++ rewrite dget_dset_eq in Hk; injection Hk as <-.
              exists n, kw; split; auto; rewrite X5, nth_error_app2 by lia.
              now rewrite Nat.sub_diag.
           ++ rewrite dget_dset_neq in Hk by auto.
              destruct (H4 k b Hk) as (m & kw' & -> & Hm').
              exists m, kw'; split; auto; eapply prefix_nth; eauto.
      * simpl in Ht; rewrite nth_error_set_nth_neq in Ht by auto.
        eapply inj_wf_Ext; eauto.
    + intros k d Hk; apply Rg2 in Hk as [->|Hk].
      * simpl; exists s5; split; auto; rewrite X5, length_app; simpl; lia.
      * eapply exists_in_Ext; eauto.
  - intros b [= <-]; split.
    + simpl; exists s5; split; auto; rewrite X5, length_app; simpl; lia.
    + exists s5; split; auto; unfold memo_get; rewrite M5; apply dget_dset_eq.
Qed.

Lemma bind_frame fuel i f w w' r :
  bind run_fn fuel i f w = (w', r) -> wf w -> exists_in w f -> bind_post i f w w' r.
Proof.
  revert f w w' r; induction fuel as [|fuel IH]; intros f w w' r Hr Hw Hf.
  - simpl in Hr. unfold mbind, get_inj in Hr.
    destruct (nth_error (injectors w) i) as [s|] eqn:Hs.
    2:{ injection Hr as <- <-. apply bind_post_raise; auto using Step_refl. }
    fold (memo_get s f) in Hr.
    destruct (memo_get s f) eqn:Hm.
    + injection Hr as <- <-; eapply bind_post_memo; eauto.
    + injection Hr as <- <-. apply bind_post_raise; auto using Step_refl.
  - simpl in Hr. unfold mbind, get_inj in Hr.
    destruct (nth_error (injectors w) i) as [s|] eqn:Hs.
    2:{ injection Hr as <- <-. apply bind_post_raise; auto using Step_refl. }
    fold (memo_get s f) in Hr.
    destruct (memo_get s f) eqn:Hm.
    { injection Hr as <- <-; eapply bind_post_memo; eauto. }
    destruct (callable_memb (lookup_func_of f) (currently_binding s)) eqn:Hc.
    { destruct (py_join _ _); injection Hr as <- <-; apply bind_post_raise; auto using Step_refl. }
    unfold modify_inj in Hr; rewrite Hs in Hr.
    simpl in Hr.
    destruct (with_binding_step w i s (set_add (lookup_func_of f) (currently_binding s)) Hs) as [S1 W1].
    specialize (W1 Hw).
    set (w1 := mkWorld _ (set_nth _ i _)) in *.
    match goal with Hr : context [resolve_deps ?a1 ?a2 ?a3 ?a4 ?a5 ?a6 ?a7 ?a8] |- _ =>
      destruct (resolve_deps a1 a2 a3 a4 a5 a6 a7 a8) as [w2 [[kw unp]|e]] eqn:Hres end.
    2:{ destruct (resolve_frame run_fn _ _ _ _ _ _ _ _ _ (fun g => IH g) Hres W1) as [S2 W2].
        injection Hr as <- <-. apply bind_post_raise; auto. eapply Step_trans; eauto. }
    destruct (resolve_frame run_fn _ _ _ _ _ _ _ _ _ (fun g => IH g) Hres W1) as [S2 W2].
    pose proof (Step_trans _ _ _ _ S1 S2) as S12.
    destruct S12 as (L12 & O12 & I12 & R12).
    destruct (I12 s Hs) as (s2 & Hs2 & P2 & X2 & M2).
    rewrite Hs2 in Hr.
    destruct (callable_memb (lookup_func_of f) (currently_binding s2)) eqn:Hc2.
    2:{ injection Hr as <- <-. apply bind_post_raise; auto. eapply Step_trans; eauto. }
    rewrite Hs2 in Hr. simpl in Hr.
    assert (Hlt : i < length (injectors w2)) by (apply nth_error_Some; congruence).
    unfold new_partial in Hr; simpl in Hr.
    rewrite nth_error_set_nth_eq in Hr by auto. simpl in Hr.
    destruct (0 <? length unp) eqn:Hu; simpl in Hr;
      rewrite nth_error_set_nth_eq in Hr by (rewrite ?length_set_nth; auto); simpl in Hr;
      injection Hr as <- <-; rewrite !set_nth_set_nth;
      (eapply finish_post with (s2 := s2) (s := s) (kw := kw); eauto using Step_trans);
      try reflexivity; try (intros k Hk; apply dget_dset_neq; congruence);
      intros k d Hk; apply In_dset in Hk as [Hk|Hk]; [left; congruence|right; auto].
Qed.
End BindFrame.

(** ** [Injector.__init__] *)

Fixpoint impls_table (ps : obj) (impls : list provider_impl)
         (tbl : list (obj * callable)) : list (obj * callable) :=
  match impls with
  | [] => tbl
  | impl :: rest =>
      impls_table ps rest
        (fold_left (fun t interface => dset obj_eq_dec t interface (CMethod (impl_fn impl) ps))
           (provider_interfaces impl) tbl)
  end.

Fixpoint sets_table (sets : list provider_set) (tbl : list (obj * callable))
  : list (obj * callable) :=
  match sets with
  | [] => tbl
  | ps :: rest => sets_table rest (impls_table (ps_self ps) (ps_providers ps) tbl)
  end.

(** Registering provider dependencies touches only plain-function keys. *)
Definition reg_grows (w : world) (reg' : list (callable * deps)) : Prop :=
  forall k d, In (k, d) reg' -> In (k, d) (dependency_map w) \/ exists f, k = CFn f.

Lemma add_impls_spec ps impls tbl w :
  exists reg', add_impls ps impls tbl w =
               (mkWorld reg' (injectors w), Ok (impls_table ps impls tbl)) /\
               reg_grows w reg'.
Proof.
  revert tbl w; induction impls as [|impl rest IH]; intros tbl w; simpl.
  - exists (dependency_map w); split; [now destruct w|intros k d; auto].
  - unfold mbind; simpl.
    set (w1 := mkWorld _ (injectors w)).
    destruct (IH (fold_left (fun t interface => dset obj_eq_dec t interface
                               (CMethod (impl_fn impl) ps))
                   (provider_interfaces impl) tbl) w1) as (reg' & E & G).
    exists reg'; split; [exact E|].
    intros k d Hk; destruct (G k d Hk) as [H|H]; auto.
    apply In_dset in H as [H|H]; [injection H as -> _; eauto|auto].
Qed.

Lemma add_sets_spec sets tbl w :
  exists reg', add_sets sets tbl w =
               (mkWorld reg' (injectors w), Ok (sets_table sets tbl)) /\
               reg_grows w reg'.
Proof.
  revert tbl w; induction sets as [|ps rest IH]; intros tbl w; simpl.
  - exists (dependency_map w); split; [now destruct w|intros k d; auto].
  - unfold mbind.
    destruct (add_impls_spec (ps_self ps) (ps_providers ps) tbl w) as (reg1 & E1 & G1).
    rewrite E1.
    destruct (IH (impls_table (ps_self ps) (ps_providers ps) tbl) (mkWorld reg1 (injectors w)))
      as (reg2 & E2 & G2).
    exists reg2; split; [exact E2|].
    intros k d Hk; destruct (G2 k d Hk) as [H|H]; auto.
Qed.

Lemma impls_table_In ps impls tbl k p :
  In (k, p) (impls_table ps impls tbl) -> In (k, p) tbl \/ exists f, p = CMethod f ps.
Proof.
  revert tbl; induction impls as [|impl rest IH]; intros tbl H; simpl in H; auto.
  apply IH in H as [H|H]; auto.
  revert tbl H; induction (provider_interfaces impl) as [|x xs IHx]; intros tbl H; simpl in H; auto.
  apply IHx in H as [H|H]; auto.
  apply In_dset in H as [H|H]; [injection H as _ ->; eauto|auto].
Qed.

Lemma sets_table_In sets tbl k p :
  In (k, p) (sets_table sets tbl) -> In (k, p) tbl \/ exists f o, p = CMethod f o.
Proof.
  revert tbl; induction sets as [|ps rest IH]; intros tbl H; simpl in H; auto.
  apply IH in H as [H|H]; auto.
  apply impls_table_In in H as [H|[f ->]]; eauto.
Qed.

(** The table an injector is built with. *)
Definition init_table (self : nat) (sets : list provider_set)
           (local_providers : option (list (obj * callable))) : list (obj * callable) :=
  dset obj_eq_dec
    (match local_providers with
     | Some l => dupdate obj_eq_dec (sets_table sets []) l
     | None => sets_table sets []
     end) Injector (CSelfProv self).

Lemma Injector_init_spec sets lp w :
  exists reg', Injector_init sets lp w =
    (mkWorld reg' (injectors w ++ [mkInjector (init_table (length (injectors w)) sets lp) [] [] []]),
     Ok (length (injectors w))) /\ reg_grows w reg'.
Proof.
  unfold Injector_init, mbind, get_world; simpl.
  destruct (add_sets_spec sets [] w) as (reg' & E & G); rewrite E.
  exists reg'; split; auto.
Qed.

Lemma Ext_app w reg' l : Ext w (mkWorld reg' (injectors w ++ l)).
Proof.
  intros j s Hs; exists s; simpl; rewrite nth_error_app1 by (apply nth_error_Some; congruence).
  split; auto; exists []; now rewrite app_nil_r.
Qed.

Definition local_ok (w : world) (lp : option (list (obj * callable))) : Prop :=
  forall l k p, lp = Some l -> In (k, p) l -> exists_in w p.

Lemma Injector_init_wf sets lp w w' r :
  wf w -> local_ok w lp -> Injector_init sets lp w = (w', r) ->
  wf w' /\ Ext w w' /\
  (forall j, j < length (injectors w) -> nth_error (injectors w') j = nth_error (injectors w) j).
Proof.
  intros [Wi Wr] Hl Hr.
  destruct (Injector_init_spec sets lp w) as (reg' & E & G).
  rewrite Hr in E; injection E as -> _.
  pose proof (Ext_app w reg' [mkInjector (init_table (length (injectors w)) sets lp) [] [] []]) as X.
  split; [split|split; auto].
  - intros j s Hs; simpl in Hs.
    destruct (Nat.lt_ge_cases j (length (injectors w))) as [Hj|Hj].
    + rewrite nth_error_app1 in Hs by auto; eapply inj_wf_Ext; eauto.
    + rewrite nth_error_app2 in Hs by auto.
      destruct (j - length (injectors w)) as [|m] eqn:Ej; simpl in Hs;
        [|destruct m; discriminate].
      injection Hs as <-.
      assert (j = length (injectors w)) as -> by lia.
      repeat split; cbn [providers partials bound_funcs].
      * intros k p Hk; unfold init_table in Hk.
        apply In_dset in Hk as [Hk|Hk]; [injection Hk as _ ->; exact I|].
        destruct lp as [l|].
        -- apply In_dupdate in Hk as [Hk|Hk].
           ++ apply sets_table_In in Hk as [[]|(f & o & ->)]; exact I.
           ++ eapply exists_in_Ext; eauto.
        -- apply sets_table_In in Hk as [[]|(f & o & ->)]; exact I.
      * intros n c kw Hn; destruct n; discriminate.
      * intros k b Hk; discriminate.
  - intros k d Hk; destruct (G k d Hk) as [H|[f ->]]; [eapply exists_in_Ext; eauto|exact I].
  - intros j Hj; simpl; apply nth_error_app1; auto.
Qed.

Lemma specialize_wf i sets lp w w' r :
  wf w -> local_ok w lp -> specialize i sets lp w = (w', r) ->
  wf w' /\ Ext w w' /\
  (forall j, j < length (injectors w) -> nth_error (injectors w') j = nth_error (injectors w) j).
Proof.
  intros Hw Hl Hr; unfold specialize, mbind, get_inj in Hr.
  destruct (nth_error (injectors w) i) as [s|] eqn:Hs.
  2:{ injection Hr as <- _; split; auto; split; auto using Ext_refl. }
  simpl in Hr; refine (Injector_init_wf _ _ _ _ _ Hw _ Hr).
  intros l k p [= <-] Hk.
  destruct lp as [l0|].
  - apply In_dupdate in Hk as [Hk|Hk]; [|eapply Hl; eauto].
    destruct Hw as [Wi _]; destruct (Wi i s Hs) as (_ & H2 & _); eauto.
  - destruct Hw as [Wi _]; destruct (Wi i s Hs) as (_ & H2 & _); eauto.
Qed.

Lemma register_wf m c w w' r :
  wf w -> exists_in w c -> register m c w = (w', r) ->
  wf w' /\ injectors w' = injectors w.
Proof.
  intros [Wi Wr] Hc Hr; unfold register in Hr; injection Hr as <- _; simpl.
  split; auto. split; simpl.
  - intros j s Hs; eapply inj_wf_Ext; [|eauto]. intros j' s' Hs'; exists s'; split; auto.
    exists []; now rewrite app_nil_r.
  - intros k d Hk; apply In_dset in Hk as [Hk|Hk]; [injection Hk as -> _; auto|].
    specialize (Wr k d Hk); destruct k; auto.
Qed.

(** ** States reachable by using the library *)

Inductive op : Type :=
| OpBind (fuel : nat) (i : nat) (f : callable)
| OpMakeInjector (sets : list provider_set) (lp : option (list (obj * callable)))
| OpSpecialize (i : nat) (sets : list provider_set) (lp : option (list (obj * callable)))
| OpDependencies (args : list callable) (mapping : deps)
| OpRegister (mapping : deps) (args : list callable).

(** The arguments of an operation are objects of the current state. *)
Definition op_ok (w : world) (o : op) : Prop :=
  match o with
  | OpBind _ _ f => exists_in w f
  | OpMakeInjector _ lp | OpSpecialize _ _ lp => local_ok w lp
  | OpDependencies args _ | OpRegister _ args => Forall (exists_in w) args
  end.

Section Reachable.
Variable run_fn : nat -> list value -> kwargs -> option value.

Definition run_op (o : op) (w : world) : world :=
  match o with
  | OpBind fuel i f => fst (bind run_fn fuel i f w)
  | OpMakeInjector sets lp => fst (make_injector sets lp w)
  | OpSpecialize i sets lp => fst (specialize i sets lp w)
  | OpDependencies args m => fst (dependencies args m w)
  | OpRegister m args => fst (call_register m args w)
  end.

(** [reachable w w']: some sequence of calls of the library leads from
    [w] to [w'] (a call that raises keeps the state it reached). *)
Inductive reachable : world -> world -> Prop :=
| reach_refl w : reachable w w
| reach_step w o w' : op_ok w o -> reachable (run_op o w) w' -> reachable w w'.

(** The injectors of [w] are still in [w'], have allocated only more
    partial objects and still hold the memo entries they had. *)
Definition Keeps (w w' : world) : Prop :=
  forall j s, nth_error (injectors w) j = Some s ->
    exists s', nth_error (injectors w') j = Some s' /\
      providers s' = providers s /\ prefix (partials s) (partials s') /\
      (forall k b, memo_get s k = Some b -> memo_get s' k = Some b).

Lemma Keeps_refl w : Keeps w w.
Proof.
  intros j s Hs; exists s; repeat split; auto; exists []; now rewrite app_nil_r.
Qed.

Lemma Keeps_trans w1 w2 w3 : Keeps w1 w2 -> Keeps w2 w3 -> Keeps w1 w3.
Proof.
  intros K1 K2 j s Hs; destruct (K1 j s Hs) as (s2 & Hs2 & P2 & X2 & M2).
  destruct (K2 j s2 Hs2) as (s3 & Hs3 & P3 & X3 & M3).
  exists s3; repeat split; auto; [congruence|eapply prefix_trans; eauto].
Qed.

Lemma Keeps_Ext w w' : Keeps w w' -> Ext w w'.
Proof. intros K j s Hs; destruct (K j s Hs) as (s' & ? & _ & ? & _); eauto. Qed.

Lemma Step_Keeps i w w' : Step i w w' -> Keeps w w'.
Proof.
  intros (L & O & I & _) j s Hs.
  destruct (Nat.eq_dec j i) as [->|Hne]; [now apply I|].
  exists s; rewrite O by auto; repeat split; auto; exists []; now rewrite app_nil_r.
Qed.

Lemma Keeps_prefix w w' :
  (forall j, j < length (injectors w) -> nth_error (injectors w') j = nth_error (injectors w) j) ->
  Keeps w w'.
Proof.
  intros H j s Hs; exists s; rewrite H by (apply nth_error_Some; congruence).
  repeat split; auto; exists []; now rewrite app_nil_r.
Qed.

Lemma run_op_wf o w : wf w -> op_ok w o -> wf (run_op o w) /\ Keeps w (run_op o w).
Proof.
  intros Hw Ho; destruct o as [fuel i f|sets lp|i sets lp|args m|m args]; simpl in *.
  - destruct (bind run_fn fuel i f w) as [w' r] eqn:Hb; simpl.
    destruct (bind_frame run_fn fuel i f w w' r Hb Hw Ho) as (S & W & _).
    split; auto; eapply Step_Keeps; eauto.
  - destruct (make_injector sets lp w) as [w' r] eqn:Hb; simpl.
    destruct (Injector_init_wf sets lp w w' r Hw Ho Hb) as (W & _ & P).
    split; auto; now apply Keeps_prefix.
  - destruct (specialize i sets lp w) as [w' r] eqn:Hb; simpl.
    destruct (specialize_wf i sets lp w w' r Hw Ho Hb) as (W & _ & P).
    split; auto; now apply Keeps_prefix.
  - destruct args as [|c [|c' rest]]; simpl; try (split; auto using Keeps_refl; fail).
    inversion Ho; subst.
    destruct (register_wf m c w _ _ Hw ltac:(auto) eq_refl) as [W E].
    split; [exact W|apply Keeps_prefix; intros; reflexivity].
  - destruct args as [|c [|c' rest]]; simpl; try (split; auto using Keeps_refl; fail).
    inversion Ho; subst.
    destruct (register_wf m c w _ _ Hw ltac:(auto) eq_refl) as [W E].
    split; [exact W|apply Keeps_prefix; intros; reflexivity].
Qed.

Lemma reachable_wf w w' : reachable w w' -> wf w -> wf w' /\ Keeps w w'.
Proof.
  induction 1 as [w|w o w' Ho R IH]; intros Hw; [split; auto using Keeps_refl|].
  destruct (run_op_wf o w Hw Ho) as [W K].
  destruct (IH W) as [W' K']; split; auto; eapply Keeps_trans; eauto.
Qed.
End Reachable.

Section DictNoDup.
Context {K V : Type} (eq_dec : forall x y : K, {x = y} + {x <> y}).

Lemma map_fst_filter_NoDup (d : list (K * V)) (p : K * V -> bool) :
  NoDup (map fst d) -> NoDup (map fst (filter p d)).
Proof.
  induction d as [|[a b] d IH]; intros Hnd; simpl; [constructor|].
  inversion Hnd as [|? ? Hnin Hnd']; subst.
  destruct (p (a, b)); simpl; auto.
  constructor; auto. intros Hin; apply Hnin.
  apply in_map_iff in Hin as ([a' b'] & Ha & Hin); simpl in Ha; rewrite <- Ha.
  apply filter_In in Hin as [Hin _]. apply (in_map fst) in Hin; exact Hin.
Qed.

Lemma NoDup_dset (d : list (K * V)) k v :
  NoDup (map fst d) -> NoDup (map fst (dset eq_dec d k v)).
Proof.
  intros Hnd; unfold dset; simpl; constructor; [|now apply map_fst_filter_NoDup].
  intros Hin; apply in_map_iff in Hin as ([a b] & Ha & Hin); simpl in Ha; rewrite <- Ha in *.
  apply filter_In in Hin as [_ H]; simpl in H; destruct (eq_dec a a); congruence.
Qed.

Lemma NoDup_dupdate (d e : list (K * V)) :
  NoDup (map fst d) -> NoDup (map fst (dupdate eq_dec d e)).
Proof.
  unfold dupdate; revert d; induction e as [|[a b] e IH]; intros d Hnd; simpl; auto.
  apply IH, NoDup_dset, Hnd.
Qed.
End DictNoDup.

Lemma NoDup_impls_table ps impls tbl :
  NoDup (map fst tbl) -> NoDup (map fst (impls_table ps impls tbl)).
Proof.
  revert tbl; induction impls as [|impl rest IH]; intros tbl Hnd; simpl; auto.
  apply IH. generalize (provider_interfaces impl) tbl Hnd.
  intros l; induction l as [|x l IHl]; intros t Ht; simpl; auto.
  apply IHl, NoDup_dset, Ht.
Qed.

Lemma NoDup_sets_table sets tbl :
  NoDup (map fst tbl) -> NoDup (map fst (sets_table sets tbl)).
Proof.
  revert tbl; induction sets as [|ps rest IH]; intros tbl Hnd; simpl; auto.
  apply IH, NoDup_impls_table, Hnd.
Qed.

Lemma NoDup_init_table self sets lp : NoDup (map fst (init_table self sets lp)).
Proof.
  unfold init_table; apply NoDup_dset.
  destruct lp; [apply NoDup_dupdate|]; apply NoDup_sets_table; constructor.
Qed.

(** Every provider table is a dictionary: no key twice. *)
Definition tables_nodup (w : world) : Prop :=
  forall j s, nth_error (injectors w) j = Some s -> NoDup (map fst (providers s)).

Lemma init_table_Injector self sets lp :
  dget obj_eq_dec (init_table self sets lp) Injector = Some (CSelfProv self).
Proof. apply (dget_dset_eq obj_eq_dec). Qed.

Lemma init_table_other self sets l k :
  k <> Injector -> NoDup (map fst l) ->
  dget obj_eq_dec (init_table self sets (Some l)) k =
    match dget obj_eq_dec l k with
    | Some p => Some p
    | None => dget obj_eq_dec (sets_table sets []) k
    end.
Proof.
  intros Hk Hnd; unfold init_table.
  rewrite (dget_dset_neq obj_eq_dec) by congruence.
  now apply dget_dupdate.
Qed.

(** The table [specialize] builds from its parent's table [tbl]. *)
Definition child_providers (tbl : list (obj * callable))
           (lp : option (list (obj * callable))) : list (obj * callable) :=
  match lp with
  | Some l => dupdate obj_eq_dec tbl l
  | None => tbl
  end.

Lemma specialize_spec i sets lp w s :
  nth_error (injectors w) i = Some s ->
  exists reg', specialize i sets lp w =
    (mkWorld reg' (injectors w ++
       [mkInjector (init_table (length (injectors w)) sets
                      (Some (child_providers (providers s) lp))) [] [] []]),
     Ok (length (injectors w))) /\ reg_grows w reg'.
Proof.
  intros Hs; unfold specialize, mbind, get_inj; rewrite Hs.
  apply Injector_init_spec.
Qed.

Lemma child_table_lookup self sets tbl lp k :
  NoDup (map fst tbl) -> (forall l, lp = Some l -> NoDup (map fst l)) ->
  dget obj_eq_dec (init_table self sets (Some (child_providers tbl lp))) k =
    if obj_eq_dec k Injector then Some (CSelfProv self)
    else match (match lp with Some l => dget obj_eq_dec l k | None => None end) with
         | Some p => Some p
         | None =>
             match dget obj_eq_dec tbl k with
             | Some p => Some p
             | None => dget obj_eq_dec (sets_table sets []) k
             end
         end.
Proof.
  intros Ht Hl; destruct (obj_eq_dec k Injector) as [->|Hk]; [apply init_table_Injector|].
  rewrite init_table_other by (auto; destruct lp; simpl; auto using NoDup_dupdate).
  destruct lp as [l|]; simpl; auto.
  rewrite dget_dupdate by auto.
  destruct (dget obj_eq_dec l k); auto.
Qed.

Section TablesNoDup.
Variable run_fn : nat -> list value -> kwargs -> option value.

Lemma run_op_nodup o w :
  wf w -> op_ok w o -> tables_nodup w -> tables_nodup (run_op run_fn o w).
Proof.
  intros Hw Ho Hn; destruct o as [fuel i f|sets lp|i sets lp|args m|m args]; simpl in *.
  - destruct (bind run_fn fuel i f w) as [w' r] eqn:Hb; simpl.
    destruct (bind_frame run_fn fuel i f w w' r Hb Hw Ho) as ((L & O & I & _) & _).
    intros j t Ht. destruct (Nat.eq_dec j i) as [->|Hne].
    + destruct (nth_error (injectors w) i) as [s|] eqn:Hs.
      * destruct (I s eq_refl) as (s' & Hs' & P & _).
        rewrite Hs' in Ht; injection Ht as <-; rewrite P; eauto.
      * apply nth_error_None in Hs; rewrite <- L in Hs; apply nth_error_None in Hs; congruence.
    + rewrite O in Ht by auto; eauto.
  - unfold make_injector.
    destruct (Injector_init_spec sets lp w) as (reg' & -> & _); simpl.
    intros j t Ht; simpl in Ht; destruct (Nat.lt_ge_cases j (length (injectors w))) as [Hj|Hj].
    + rewrite nth_error_app1 in Ht by auto; eauto.
    + rewrite nth_error_app2 in Ht by auto.
      destruct (j - length (injectors w)) as [|m]; simpl in Ht; [|destruct m; discriminate].
      injection Ht as <-; apply NoDup_init_table.
  - destruct (nth_error (injectors w) i) as [s|] eqn:Hs.
    + destruct (specialize_spec i sets lp w s Hs) as (reg' & -> & _); simpl.
      intros j t Ht; simpl in Ht; destruct (Nat.lt_ge_cases j (length (injectors w))) as [Hj|Hj].
      * rewrite nth_error_app1 in Ht by auto; eauto.
      * rewrite nth_error_app2 in Ht by auto.
        destruct (j - length (injectors w)) as [|m]; simpl in Ht; [|destruct m; discriminate].
        injection Ht as <-; apply NoDup_init_table.
    + unfold specialize, mbind, get_inj; rewrite Hs; exact Hn.
  - destruct args as [|c [|c' rest]]; exact Hn.
  - destruct args as [|c [|c' rest]]; exact Hn.
Qed.

Lemma reachable_nodup w w' :
  reachable run_fn w w' -> wf w -> tables_nodup w -> tables_nodup w'.
Proof.
  induction 1 as [w|w o w' Ho R IH]; intros Hw Hn; auto.
  destruct (run_op_wf run_fn o w Hw Ho) as [W _].
  apply IH; auto; apply run_op_nodup; auto.
Qed.
End TablesNoDup.


Section NoCycleError.
Variable run_fn : nat -> list value -> kwargs -> option value.


End NoCycleError.

(** ** Concrete programs used by the examples *)

Module Examples.
Definition kwget (kw : kwargs) (n : string) : option value := dget string_dec kw n.

(** The plain functions of the examples:
    - [1]: [def f(a, b): return (a, b)];
    - [2], [3]: providers [lambda iface: "hi"], [lambda iface: "cheese"];
    - [4]: a provider that raises;
    - [5]: [def p(iface, injector): return injector];
    - [6], [7]: [def p1(iface, x): return x], [def p2(iface, y): return y]. *)
Definition ex_fns (f : nat) (args : list value) (kw : kwargs) : option value :=
  match f with
  | 1 => match args, kwget kw "a", kwget kw "b", length kw with
         | [], Some a, Some b, 2 => Some (VPair a b)
         | _, _, _, _ => None
         end
  | 2 => match args, kw with [_], [] => Some (VStr "hi") | _, _ => None end
  | 3 => match args, kw with [_], [] => Some (VStr "cheese") | _, _ => None end
  | 5 => match args, kw with [_], [(n, v)] => if string_dec n "injector" then Some v else None
                        | _, _ => None end
  | 6 => match args, kw with [_], [(n, v)] => if string_dec n "x" then Some v else None
                        | _, _ => None end
  | 7 => match args, kw with [_], [(n, v)] => if string_dec n "y" then Some v else None
                        | _, _ => None end
  | _ => None
  end.

(** Two one-off interfaces [X] and [Y] (instances of classes 100, 101). *)
Definition X : obj := OInst 10 100.
Definition Y : obj := OInst 11 101.


(** [f] depends on [a: X], and [X]'s provider raises. *)
Definition failing_world : world :=
  fst (make_injector [] (Some [(X, CFn 4)]) (mkWorld [(CFn 1, [("a"%string, X)])] [])).

(** [f = app.dependencies(f, a=X, b=Y)]; [injector = app.make_injector(
    local_providers={X: provide_hi})]. *)
Definition f_deps : deps := [("a"%string, X); ("b"%string, Y)].
Definition xy_world : world :=
  fst (make_injector [] (Some [(X, CFn 2)])
         (fst (dependencies [CFn 1] f_deps empty_world))).
Definition xy_injector : injector :=
  mkInjector [(Injector, CSelfProv 0); (X, CFn 2)] [] [] [].

(** [child = injector.specialize(local_providers={Y: provide_cheese})]. *)
Definition xy_child_world : world :=
  fst (specialize 0 [] (Some [(Y, CFn 3)]) xy_world).

(** An injector made with no argument. *)
Definition root_world : world := fst (make_injector [] None empty_world).

(** [p = app.dependencies(p, injector=Injector)]; an injector and a child
    [specialize]d from it with no argument. *)
Definition inj_deps : deps := [("injector"%string, Injector)].
Definition family_world : world :=
  fst (specialize 0 [] None
         (fst (make_injector [] None (fst (dependencies [CFn 5] inj_deps empty_world))))).

(** Two instances of one class, whose bound methods [o1.m] and [o2.m]
    share the function [2]. *)
Definition O1 : obj := OInst 12 103.
Definition O2 : obj := OInst 13 103.

(** A provider set (an instance of class 104) whose provider [3]
    provides the [Injector] key. *)
Definition injector_set : provider_set :=
  mkProviderSet (OInst 14 104) [mkProviderImpl 3 [Injector] []].
Definition injector_set_world : world := fst (specialize 0 [injector_set] None root_world).

(** A provider set (an instance of class 105) whose provider [3]
    provides [X], given to [specialize] on the injector that provides
    [X] with [2]. *)
Definition x_set : provider_set :=
  mkProviderSet (OInst 15 105) [mkProviderImpl 3 [X] []].
Definition x_set_world : world := fst (specialize 0 [x_set] None xy_world).
End Examples.



Section ResolveSpec.
Variable run_fn : nat -> list value -> kwargs -> option value.

(** What the loop of [bind] computes, entry by entry. *)
Lemma resolve_spec fuel (bindf : callable -> M callable) i ds kw unp w w' kw' unp' s :
  (forall f w w' r, bindf f w = (w', r) -> wf w -> exists_in w f -> bind_post i f w w' r) ->
  NoDup (map fst ds) -> wf w -> nth_error (injectors w) i = Some s ->
  resolve_deps run_fn fuel bindf i ds kw unp w = (w', Ok (kw', unp')) ->
  Step i w w' /\ wf w' /\
  exists s', nth_error (injectors w') i = Some s' /\
    (forall n x p, In (n, x) ds -> find_provider (providers s) x = Some p ->
       exists p' v, memo_get s' p = Some p' /\
         call_fuel run_fn fuel w' p' [VObj x] [] = Some v /\
         dget string_dec kw' n = Some v /\ dget string_dec unp' n = dget string_dec unp n) /\
    (forall n x, In (n, x) ds -> find_provider (providers s) x = None ->
       dget string_dec unp' n = Some x /\ dget string_dec kw' n = dget string_dec kw n) /\
    (forall n, ~ In n (map fst ds) ->
       dget string_dec kw' n = dget string_dec kw n /\
       dget string_dec unp' n = dget string_dec unp n).
Proof.
  intros HB; revert kw unp w s; induction ds as [|[n0 x0] ds IH];
    intros kw unp w s Hnd Hw Hs Hr; simpl in Hr.
  - injection Hr as <- <- <-. split; [apply Step_refl|split; [auto|]].
    exists s; split; auto; repeat split; intros; try contradiction; auto.
  - inversion Hnd as [|? ? Hnin Hnd']; subst.
    unfold mbind, get_inj in Hr; rewrite Hs in Hr.
    destruct (find_provider (providers s) x0) as [p|] eqn:Hp.
    + destruct (bindf p w) as [w1 [b|e]] eqn:Hb; [|discriminate].
      assert (Hex : exists_in w p).
      { destruct (find_provider_In _ _ _ Hp) as [k Hk].
        destruct Hw as [Wi _]; destruct (Wi i s Hs) as (_ & H2 & _); eauto. }
      destruct (HB p w w1 (Ok b) Hb Hw Hex) as (S1 & W1 & Hpost).
      destruct (Hpost b eq_refl) as (Hbex & s1 & Hs1 & Hm1).
      unfold invoke in Hr.
      destruct (call_fuel run_fn fuel w1 b [VObj x0] []) as [v|] eqn:Hv; [|discriminate].
      destruct (IH _ _ _ _ Hnd' W1 Hs1 Hr) as (S2 & W2 & s' & Hs' & HA & HBn & HC).
      pose proof S1 as (_ & _ & I1 & _).
      destruct (I1 s Hs) as (s1' & Hs1' & P1 & _ & _).
      rewrite Hs1 in Hs1'; injection Hs1' as <-.
      pose proof S2 as (_ & _ & I2 & _).
      destruct (I2 s1 Hs1) as (s2 & Hs2 & P2 & _ & M2).
      rewrite Hs' in Hs2; injection Hs2 as <-.
      split; [eapply Step_trans; eauto|split; [auto|]].
      exists s'; split; auto; split; [|split].
      * intros n x q [Heq|Hin] Hq.
        -- injection Heq as <- <-. rewrite Hp in Hq; injection Hq as <-.
           exists b, v; split; [auto|split; [eapply call_Ext; [eapply Step_Ext; eauto|auto]|]].
           destruct (HC n0 Hnin) as [K1 K2]; rewrite K1, K2.
           split; [apply (dget_dset_eq string_dec)|reflexivity].
        -- rewrite <- P1 in Hq.
           destruct (HA n x q Hin Hq) as (p' & v' & Hm & Hc & Hk & Hu).
           exists p', v'; repeat split; auto.
      * intros n x [Heq|Hin] Hq.
        -- injection Heq as <- <-; congruence.
        -- rewrite <- P1 in Hq; destruct (HBn n x Hin Hq) as [U K]; split; auto.
           rewrite K; apply (dget_dset_neq string_dec).
           intros <-; apply Hnin; change n0 with (fst (n0, x)); now apply in_map.
      * intros n Hn; simpl in Hn.
        destruct (HC n (fun H => Hn (or_intror H))) as [K U]; split; auto.
        rewrite K; apply (dget_dset_neq string_dec); auto.
    + destruct (IH _ _ _ _ Hnd' Hw Hs Hr) as (S2 & W2 & s' & Hs' & HA & HBn & HC).
      split; auto; split; auto; exists s'; split; auto; split; [|split].
      * intros n x q [Heq|Hin] Hq; [injection Heq as <- <-; congruence|].
        destruct (HA n x q Hin Hq) as (p' & v' & Hm & Hc & Hk & Hu).
        exists p', v'; repeat split; auto. rewrite Hu; apply (dget_dset_neq string_dec).
        intros <-; apply Hnin; change n0 with (fst (n0, x)); now apply in_map.
      * intros n x [Heq|Hin] Hq.
        -- injection Heq as <- <-. destruct (HC n0 Hnin) as [K U]; rewrite U, K.
           split; [apply (dget_dset_eq string_dec)|reflexivity].
        -- auto.
      * intros n Hn; simpl in Hn.
        destruct (HC n (fun H => Hn (or_intror H))) as [K U]; split; auto.
        rewrite U; apply (dget_dset_neq string_dec); auto.
Qed.
End ResolveSpec.

(** [cb_inv i w w']: the resolving set of injector [i] is the same in [w']
    as in [w], and a callable that was neither bound nor bindable (its
    function is being resolved) has still not been bound. *)
Definition cb_inv (i : nat) (w w' : world) : Prop :=
  forall s, nth_error (injectors w) i = Some s ->
    exists s', nth_error (injectors w') i = Some s' /\
      currently_binding s' = currently_binding s /\
      (forall k, memo_get s k = None -> In (lookup_func_of k) (currently_binding s) ->
                 memo_get s' k = None).

Lemma cb_inv_refl i w : cb_inv i w w.
Proof. intros s Hs; exists s; auto. Qed.

Lemma cb_inv_trans i w1 w2 w3 : cb_inv i w1 w2 -> cb_inv i w2 w3 -> cb_inv i w1 w3.
Proof.
  intros C1 C2 s Hs; destruct (C1 s Hs) as (s2 & Hs2 & E2 & M2).
  destruct (C2 s2 Hs2) as (s3 & Hs3 & E3 & M3).
  exists s3; split; auto; split; [congruence|].
  intros k Hk Hin; apply M3; [auto|rewrite E2; auto].
Qed.

Section CbInv.
Variable run_fn : nat -> list value -> kwargs -> option value.

Lemma resolve_cb fuel bindf i ds kw unp w w' r :
  (forall p w w' b, bindf p w = (w', Ok b) -> cb_inv i w w') ->
  resolve_deps run_fn fuel bindf i ds kw unp w = (w', Ok r) -> cb_inv i w w'.
Proof.
  intros HB; revert kw unp w; induction ds as [|[n x] ds IH]; intros kw unp w Hr; simpl in Hr.
  - injection Hr as <- _; apply cb_inv_refl.
  - unfold mbind, get_inj in Hr.
    destruct (nth_error (injectors w) i) as [s|]; [|discriminate].
    destruct (find_provider (providers s) x) as [p|]; [|eapply IH; eauto].
    destruct (bindf p w) as [w1 [b|e]] eqn:Hb; [|discriminate].
    unfold invoke in Hr; destruct (call_fuel run_fn fuel w1 b [VObj x] []); [|discriminate].
    eapply cb_inv_trans; [eapply HB; eauto|eapply IH; eauto].
Qed.

Lemma bind_cb fuel i f w w' b :
  bind run_fn fuel i f w = (w', Ok b) -> cb_inv i w w'.
Proof.
  revert f w w' b; induction fuel as [|fuel IH]; intros f w w' b Hr.
  - simpl in Hr; unfold mbind, get_inj in Hr.
    destruct (nth_error (injectors w) i); [|discriminate].
    destruct (dget _ _ _); injection Hr as <- _; apply cb_inv_refl.
  - simpl in Hr; unfold mbind, get_inj in Hr.
    destruct (nth_error (injectors w) i) as [s|] eqn:Hs; [|discriminate].
    fold (memo_get s f) in Hr.
    destruct (memo_get s f) eqn:Hm; [injection Hr as <- _; apply cb_inv_refl|].
    destruct (callable_memb (lookup_func_of f) (currently_binding s)) eqn:Hc.
    { destruct (py_join _ _); discriminate. }
    assert (Hnin : ~ In (lookup_func_of f) (currently_binding s)).
    { rewrite <- callable_memb_In; congruence. }
    unfold modify_inj in Hr; rewrite Hs in Hr; simpl in Hr.
    set (sa := with_binding s (set_add (lookup_func_of f) (currently_binding s))) in *.
    set (w1 := mkWorld _ (set_nth _ i sa)) in *.
    assert (Hs1 : nth_error (injectors w1) i = Some sa)
      by (apply nth_error_set_nth_eq, nth_error_Some; congruence).
    match goal with Hr : context [resolve_deps ?a1 ?a2 ?a3 ?a4 ?a5 ?a6 ?a7 ?a8] |- _ =>
      destruct (resolve_deps a1 a2 a3 a4 a5 a6 a7 a8) as [w2 [[kw unp]|e]] eqn:Hres end;
      [|discriminate].
    pose proof (resolve_cb _ _ _ _ _ _ _ _ _ (fun p w w' b => IH p w w' b) Hres) as C12.
    destruct (C12 sa Hs1) as (s2 & Hs2 & E2 & M2).
    rewrite Hs2 in Hr.
    assert (Hcb : currently_binding s2 = lookup_func_of f :: currently_binding s).
    { rewrite E2; unfold sa, with_binding, set_add; simpl; now rewrite Hc. }
    destruct (callable_memb (lookup_func_of f) (currently_binding s2)) eqn:Hc2.
    2:{ rewrite Hcb in Hc2; simpl in Hc2; destruct (callable_eq_dec _ _); simpl in Hc2; congruence. }
    rewrite Hs2 in Hr. simpl in Hr.
    assert (Hlt : i < length (injectors w2)) by (apply nth_error_Some; congruence).
    unfold new_partial in Hr; simpl in Hr.
    rewrite nth_error_set_nth_eq in Hr by auto. simpl in Hr.
    assert (HM : forall k, memo_get s k = None -> In (lookup_func_of k) (currently_binding s) ->
                 k <> f /\ memo_get s2 k = None).
    { intros k Hk Hin; split; [intros ->; contradiction|].
      apply M2; [exact Hk|unfold sa, with_binding, set_add; simpl; rewrite Hc; right; auto]. }
    destruct (0 <? length unp); simpl in Hr;
      rewrite nth_error_set_nth_eq in Hr by (rewrite ?length_set_nth; auto); simpl in Hr;
      injection Hr as <- _; intros t Ht; rewrite Hs in Ht; injection Ht as <-.
    all: eexists; split; [apply nth_error_set_nth_eq; rewrite ?length_set_nth; auto|]; simpl.
    all: split; [rewrite Hcb; simpl; destruct (callable_eq_dec _ _); [|congruence];
                 now apply notin_remove|].
    all: intros k Hk Hin; destruct (HM k Hk Hin) as [Hkf Hk2]; unfold memo_get; simpl.
    all: destruct (callable_eq_dec f k); [congruence|].
    all: rewrite (dget_filter_neq callable_eq_dec) by congruence; exact Hk2.
Qed.
End CbInv.

Definition resolvable (tbl : list (obj * callable)) (x : obj) : bool :=
  match find_provider tbl x with Some _ => true | None => false end.

Section BindSpec.
Variable run_fn : nat -> list value -> kwargs -> option value.

Lemma bind_ok_spec fuel i f w w' a s ds :
  wf w -> exists_in w f -> nth_error (injectors w) i = Some s -> memo_get s f = None ->
  ~ In (lookup_func_of f) (currently_binding s) ->
  reg_get w (lookup_func_of f) = Some ds -> NoDup (map fst ds) ->
  bind run_fn (S fuel) i f w = (w', Ok a) ->
  exists s' n kw, a = CPartial i n /\ nth_error (injectors w') i = Some s' /\
    nth_error (partials s') n = Some (f, kw) /\
    memo_get s' f = Some a /\ currently_binding s' = currently_binding s /\
    (forall name x p, In (name, x) ds -> find_provider (providers s) x = Some p ->
       exists p' v, memo_get s' p = Some p' /\
         call_fuel run_fn fuel w' p' [VObj x] [] = Some v /\ dget string_dec kw name = Some v) /\
    (forall name x, In (name, x) ds -> find_provider (providers s) x = None ->
       dget string_dec kw name = None) /\
    (forall name, ~ In name (map fst ds) -> dget string_dec kw name = None) /\
    ((exists name x, In (name, x) ds /\ find_provider (providers s) x = None) ->
     exists u, reg_get w' a = Some u /\
       forall name x, dget string_dec u name = Some x <->
                      In (name, x) ds /\ find_provider (providers s) x = None).
Proof.
  intros Hw Hf Hs Hm Hnin Hds Hnd Hr.
  simpl in Hr; unfold mbind, get_inj in Hr; rewrite Hs in Hr.
  fold (memo_get s f) in Hr; rewrite Hm in Hr.
  assert (Hc : callable_memb (lookup_func_of f) (currently_binding s) = false).
  { destruct (callable_memb _ _) eqn:E; auto; apply callable_memb_In in E; contradiction. }
  rewrite Hc in Hr.
  unfold modify_inj in Hr; rewrite Hs in Hr; simpl in Hr.
  destruct (with_binding_step w i s (set_add (lookup_func_of f) (currently_binding s)) Hs) as [S1 W1].
  specialize (W1 Hw).
  set (sa := with_binding s (set_add (lookup_func_of f) (currently_binding s))) in *.
  set (w1 := mkWorld _ (set_nth _ i sa)) in *.
  assert (Hs1 : nth_error (injectors w1) i = Some sa)
    by (apply nth_error_set_nth_eq, nth_error_Some; congruence).
  unfold reg_get in Hds; unfold get_world in Hr; simpl in Hr; rewrite Hds in Hr.
  destruct (resolve_deps run_fn fuel (bind run_fn fuel i) i ds [] [] w1)
    as [w2 [[kw unp]|e]] eqn:Hres; [|discriminate].
  destruct (resolve_spec run_fn fuel (bind run_fn fuel i) i ds [] [] w1 w2 kw unp sa
              (fun g => bind_frame run_fn fuel i g) Hnd W1 Hs1 Hres)
    as (S2 & W2 & s2 & Hs2 & HA & HB & HC).
  pose proof (resolve_cb run_fn _ _ _ _ _ _ _ _ _ (fun p w w' b => bind_cb run_fn fuel i p w w' b) Hres) as C12.
  destruct (C12 sa Hs1) as (s2' & Hs2' & E2 & M2).
  rewrite Hs2 in Hs2'; injection Hs2' as <-.
  rewrite Hs2 in Hr.
  assert (Hcb : currently_binding s2 = lookup_func_of f :: currently_binding s).
  { rewrite E2; unfold sa, with_binding, set_add; simpl; now rewrite Hc. }
  assert (Hm2 : memo_get s2 f = None).
  { apply M2; [exact Hm|unfold sa, with_binding, set_add; simpl; rewrite Hc; left; auto]. }
  destruct (callable_memb (lookup_func_of f) (currently_binding s2)) eqn:Hc2.
  2:{ rewrite Hcb in Hc2; simpl in Hc2; destruct (callable_eq_dec _ _); simpl in Hc2; congruence. }
  rewrite Hs2 in Hr. simpl in Hr.
  assert (Hlt : i < length (injectors w2)) by (apply nth_error_Some; congruence).
  unfold new_partial in Hr; simpl in Hr.
  rewrite nth_error_set_nth_eq in Hr by auto. simpl in Hr.
  destruct (0 <? length unp) eqn:Hu; simpl in Hr;
    rewrite nth_error_set_nth_eq in Hr by (rewrite ?length_set_nth; auto); simpl in Hr;
    injection Hr as <- <-; rewrite !set_nth_set_nth.
  all: assert (Psa : providers sa = providers s) by reflexivity.
  all: rewrite Psa in HA, HB.
  all: set (s5 := with_memo _ _).
  all: set (w5 := mkWorld _ (set_nth (injectors w2) _ s5)).
  all: assert (H5 : nth_error (injectors w5) i = Some s5) by (apply nth_error_set_nth_eq; auto).
  all: assert (E5 : Ext w2 w5) by
         (intros j t Ht; destruct (Nat.eq_dec i j) as [<-|Hne];
          [rewrite Hs2 in Ht; injection Ht as <-; exists s5; split; auto; simpl; eexists; reflexivity
          |exists t; simpl; rewrite nth_error_set_nth_neq by auto; split; auto;
           exists []; now rewrite app_nil_r]).
  all: exists s5, (length (partials s2)), kw.
  all: split; [reflexivity|split; [exact H5|]].
  all: split; [simpl; rewrite nth_error_app2, Nat.sub_diag by lia; reflexivity|].
  all: split; [unfold memo_get; simpl; apply (dget_dset_eq callable_eq_dec)|].
  all: split; [simpl; rewrite Hcb; simpl; destruct (callable_eq_dec _ _); [|congruence];
               now apply notin_remove|].
  all: split; [intros name x p Hin Hp; destruct (HA name x p Hin Hp) as (p' & v & Hmp & Hv & Hk & _);
               exists p', v; split; [|split; [eapply call_Ext; eauto|auto]];
               unfold memo_get, s5, with_memo; cbn [bound_funcs]; rewrite (dget_dset_neq callable_eq_dec); [exact Hmp|congruence]|].
  all: split; [intros name x Hin Hp; destruct (HB name x Hin Hp) as [_ K]; exact K|].
  all: split; [intros name Hn; destruct (HC name Hn) as [K _]; exact K|].
  all: intros (name0 & x0 & Hin0 & Hp0).
  2:{ destruct (HB name0 x0 Hin0 Hp0) as [U _].
      destruct unp; [discriminate|simpl in Hu; discriminate]. }
  exists unp; split; [unfold reg_get; simpl; apply (dget_dset_eq callable_eq_dec)|].
  intros name x; split.
  - intros Hx. destruct (in_dec string_dec name (map fst ds)) as [Hn|Hn].
    + apply in_map_iff in Hn as ([name' x'] & Heq & Hin); simpl in Heq; subst name'.
      destruct (find_provider (providers s) x') as [p|] eqn:Hp.
      * destruct (HA name x' p Hin Hp) as (_ & _ & _ & _ & _ & U); rewrite U in Hx; discriminate.
      * destruct (HB name x' Hin Hp) as [U _]; rewrite U in Hx; injection Hx as <-; auto.
    + destruct (HC name Hn) as [_ U]; rewrite U in Hx; discriminate.
  - intros [Hin Hp]; destruct (HB name x Hin Hp) as [U _]; exact U.
Qed.
End BindSpec.

(** ** Binding on one injector only depends on that injector *)

(** [Sim i e w1 w2]: [w1] and [w2] agree on everything a [bind] of
    injector [i] reads: the injector itself, the partial objects that
    exist in [w1], and the declared dependencies of the callables that
    exist in [w1] -- except those of [e], whose function is being
    resolved on injector [i], so that no nested [bind] reads them. *)
Definition Sim (i : nat) (e : option callable) (w1 w2 : world) : Prop :=
  nth_error (injectors w1) i = nth_error (injectors w2) i /\
  Ext w1 w2 /\ wf w1 /\ wf w2 /\
  (forall k, exists_in w1 k -> e <> Some k -> reg_get w1 k = reg_get w2 k) /\
  (forall f, e = Some f -> exists_in w1 f /\
     exists s, nth_error (injectors w1) i = Some s /\ In f (currently_binding s)).

Lemma exists_in_lookup w f : exists_in w f -> exists_in w (lookup_func_of f).
Proof. destruct f; simpl; auto. Qed.

Lemma wf_reg_fresh w k : wf w -> ~ exists_in w k -> reg_get w k = None.
Proof.
  intros [_ Wr] Hk; unfold reg_get.
  destruct (dget callable_eq_dec (dependency_map w) k) as [d|] eqn:E; auto.
  exfalso; apply Hk, (Wr k d), (dget_In callable_eq_dec); exact E.
Qed.

Section CallSim.
Variable run_fn : nat -> list value -> kwargs -> option value.

Lemma call_sim fuel w1 w2 c args kw :
  Ext w1 w2 -> wf w1 -> exists_in w1 c ->
  call_fuel run_fn fuel w2 c args kw = call_fuel run_fn fuel w1 c args kw.
Proof.
  intros E W; revert c args kw; induction fuel as [|fuel IH]; intros c args kw Hc;
    destruct c as [| | |j n]; simpl; auto.
  destruct Hc as (s & Hs & Hn).
  destruct (nth_error (partials s) n) as [[c' kw0]|] eqn:Hp.
  2:{ apply nth_error_None in Hp; lia. }
  assert (He : partial_entry w1 j n = Some (c', kw0)) by (unfold partial_entry; now rewrite Hs).
  rewrite He, (partial_entry_Ext w1 w2 j n _ E He).
  apply IH. destruct W as [Wi _]; destruct (Wi j s Hs) as (_ & _ & H3 & _); eauto.
Qed.
End CallSim.

Section ResolveSim.
Variable run_fn : nat -> list value -> kwargs -> option value.

Lemma resolve_sim fuel bindf i e ds kw unp w1 w2 w1' r1 w2' r2 :
  (forall p w1 w2 w1' r1 w2' r2, Sim i e w1 w2 -> exists_in w1 p ->
     bindf p w1 = (w1', r1) -> bindf p w2 = (w2', r2) -> r1 = r2 /\ Sim i e w1' w2') ->
  (forall f w w' r, bindf f w = (w', r) -> wf w -> exists_in w f -> bind_post i f w w' r) ->
  Sim i e w1 w2 ->
  resolve_deps run_fn fuel bindf i ds kw unp w1 = (w1', r1) ->
  resolve_deps run_fn fuel bindf i ds kw unp w2 = (w2', r2) ->
  r1 = r2 /\ Sim i e w1' w2'.
Proof.
  intros HS HB; revert kw unp w1 w2; induction ds as [|[n x] ds IH];
    intros kw unp w1 w2 Hsim Hr1 Hr2; simpl in Hr1, Hr2.
  - injection Hr1 as <- <-; injection Hr2 as <- <-; auto.
  - unfold mbind, get_inj in Hr1, Hr2.
    pose proof Hsim as (Hi & E & W1 & W2 & _).
    rewrite <- Hi in Hr2.
    destruct (nth_error (injectors w1) i) as [s|] eqn:Hs.
    2:{ injection Hr1 as <- <-; injection Hr2 as <- <-; auto. }
    destruct (find_provider (providers s) x) as [p|] eqn:Hp; [|eapply IH; eauto].
    assert (Hex : exists_in w1 p).
    { destruct (find_provider_In _ _ _ Hp) as [k Hk].
      destruct W1 as [Wi _]; destruct (Wi i s Hs) as (_ & H2 & _); eauto. }
    destruct (bindf p w1) as [w1a ra] eqn:Hb1.
    destruct (bindf p w2) as [w2a ra'] eqn:Hb2.
    destruct (HS p w1 w2 w1a ra w2a ra' Hsim Hex Hb1 Hb2) as [<- Hsim'].
    destruct ra as [b|err].
    2:{ injection Hr1 as <- <-; injection Hr2 as <- <-; auto. }
    destruct (HB p w1 w1a (Ok b) Hb1 W1 Hex) as (_ & _ & Hpost).
    destruct (Hpost b eq_refl) as [Hbex _].
    pose proof Hsim' as (_ & Ea & Wa & _).
    unfold invoke in Hr1, Hr2.
    rewrite (call_sim run_fn fuel w1a w2a b _ _ Ea Wa Hbex) in Hr2.
    destruct (call_fuel run_fn fuel w1a b [VObj x] []) as [v|].
    + eapply IH; eauto.
    + injection Hr1 as <- <-; injection Hr2 as <- <-; auto.
Qed.
End ResolveSim.

Lemma Ext_set_nth_back w reg i s s' :
  nth_error (injectors w) i = Some s -> prefix (partials s') (partials s) ->
  Ext (mkWorld reg (set_nth (injectors w) i s')) w.
Proof.
  intros Hs X j t Ht; simpl in Ht.
  destruct (Nat.eq_dec i j) as [<-|Hne].
  - rewrite nth_error_set_nth_eq in Ht by (apply nth_error_Some; congruence).
    injection Ht as <-; eauto.
  - rewrite nth_error_set_nth_neq in Ht by auto; exists t; split; auto.
    exists []; now rewrite app_nil_r.
Qed.

Lemma Sim_set_nth i e w1 w2 s s' reg1 reg2 :
  Sim i e w1 w2 -> nth_error (injectors w1) i = Some s ->
  prefix (partials s) (partials s') ->
  wf (mkWorld reg1 (set_nth (injectors w1) i s')) ->
  wf (mkWorld reg2 (set_nth (injectors w2) i s')) ->
  (forall k, exists_in (mkWorld reg1 (set_nth (injectors w1) i s')) k -> e <> Some k ->
     dget callable_eq_dec reg1 k = dget callable_eq_dec reg2 k) ->
  (forall f, e = Some f -> In f (currently_binding s')) ->
  Sim i e (mkWorld reg1 (set_nth (injectors w1) i s'))
          (mkWorld reg2 (set_nth (injectors w2) i s')).
Proof.
  intros (Hi & E & W1 & W2 & R & Ex) Hs X V1 V2 HR HE.
  assert (Hs2 : nth_error (injectors w2) i = Some s) by congruence.
  assert (L1 : i < length (injectors w1)) by (apply nth_error_Some; congruence).
  assert (L2 : i < length (injectors w2)) by (apply nth_error_Some; congruence).
  split; [simpl; rewrite !nth_error_set_nth_eq by auto; reflexivity|].
  split; [|split; [auto|split; [auto|split; [exact HR|]]]].
  - intros j t Ht; simpl in Ht |- *. destruct (Nat.eq_dec i j) as [<-|Hne].
    + rewrite nth_error_set_nth_eq in Ht by auto; injection Ht as <-.
      exists s'; rewrite nth_error_set_nth_eq by auto; split; auto.
      exists []; now rewrite app_nil_r.
    + rewrite nth_error_set_nth_neq in Ht |- * by auto; auto.
  - intros f Hf; destruct (Ex f Hf) as [Hex _]; split.
    + exact (exists_in_Ext _ _ _ (Ext_set_nth w1 i s s' Hs X) Hex).
    + exists s'; split; [simpl; apply nth_error_set_nth_eq; auto|auto].
Qed.

Lemma exists_in_set_nth_new w reg i s s' x k :
  nth_error (injectors w) i = Some s -> partials s' = partials s ++ [x] ->
  exists_in (mkWorld reg (set_nth (injectors w) i s')) k ->
  k <> CPartial i (length (partials s)) -> exists_in w k.
Proof.
  intros Hs P; destruct k as [| | |j n]; simpl; auto.
  intros (t & Ht & Hn) Hne.
  destruct (Nat.eq_dec i j) as [<-|Hij].
  - rewrite nth_error_set_nth_eq in Ht by (apply nth_error_Some; congruence).
    injection Ht as <-; rewrite P, length_app in Hn; simpl in Hn.
    exists s; split; auto. assert (n <> length (partials s)) by congruence; lia.
  - rewrite nth_error_set_nth_neq in Ht by auto; eauto.
Qed.

Lemma set_add_In x y l : In y l -> In y (set_add x l).
Proof. unfold set_add; destruct (callable_memb x l); simpl; auto. Qed.

Lemma in_in_remove' x y l : In y l -> y <> x -> In y (remove callable_eq_dec x l).
Proof. intros; apply in_in_remove; auto. Qed.

Section BindSim.
Variable run_fn : nat -> list value -> kwargs -> option value.

Lemma bind_sim fuel i e f w1 w2 w1' r1 w2' r2 :
  Sim i e w1 w2 -> exists_in w1 f ->
  bind run_fn fuel i f w1 = (w1', r1) -> bind run_fn fuel i f w2 = (w2', r2) ->
  r1 = r2 /\ Sim i e w1' w2'.
Proof.
  revert f w1 w2 w1' r1 w2' r2; induction fuel as [|fuel IH];
    intros f w1 w2 w1' r1 w2' r2 HS Hf H1 H2; pose proof HS as (Hi & E & V1 & V2 & HR & HE).
  - simpl in H1, H2. unfold mbind, get_inj in H1, H2. rewrite <- Hi in H2.
    destruct (nth_error (injectors w1) i) as [s|];
      [|injection H1 as <- <-; injection H2 as <- <-; auto].
    destruct (dget _ (bound_funcs s) f); injection H1 as <- <-; injection H2 as <- <-; auto.
  - pose proof (bind_frame run_fn _ _ _ _ _ _ H1 V1 Hf) as BP1.
    pose proof (bind_frame run_fn _ _ _ _ _ _ H2 V2 (exists_in_Ext _ _ _ E Hf)) as BP2.
    simpl in H1, H2. unfold mbind, get_inj in H1, H2. rewrite <- Hi in H2.
    destruct (nth_error (injectors w1) i) as [s|] eqn:Hs;
      [|injection H1 as <- <-; injection H2 as <- <-; auto].
    fold (memo_get s f) in H1, H2.
    destruct (memo_get s f) eqn:Hm; [injection H1 as <- <-; injection H2 as <- <-; auto|].
    destruct (callable_memb (lookup_func_of f) (currently_binding s)) eqn:Hc.
    { destruct (py_join _ _); injection H1 as <- <-; injection H2 as <- <-; auto. }
    assert (Hne : e <> Some (lookup_func_of f)).
    { intros He; destruct (HE _ He) as (_ & s' & Hs' & Hin).
      try rewrite Hs in Hs'; injection Hs' as <-.
      apply callable_memb_In in Hin; congruence. }
    assert (Hreg := HR _ (exists_in_lookup _ _ Hf) Hne); unfold reg_get in Hreg.
    unfold modify_inj in H1, H2; rewrite Hs in H1; rewrite <- Hi in H2.
    simpl in H1, H2. rewrite <- Hreg in H2.
    set (sb := with_binding s _) in H1, H2.
    destruct (with_binding_step w1 i s (set_add (lookup_func_of f) (currently_binding s)) Hs) as [_ U1].
    assert (Hs2 : nth_error (injectors w2) i = Some s) by congruence.
    destruct (with_binding_step w2 i s (set_add (lookup_func_of f) (currently_binding s)) Hs2) as [_ U2].
    assert (HS1 : Sim i e (mkWorld (dependency_map w1) (set_nth (injectors w1) i sb))
                          (mkWorld (dependency_map w2) (set_nth (injectors w2) i sb))).
    { apply Sim_set_nth with s; auto.
      - exists []; now rewrite app_nil_r.
      - intros k Hk Hek. apply HR; auto.
        refine (exists_in_Ext _ _ _ (Ext_set_nth_back w1 _ i s sb Hs _) Hk).
        exists []; now rewrite app_nil_r.
      - intros f0 Hf0; destruct (HE _ Hf0) as (_ & s' & Hs' & Hin).
        try rewrite Hs in Hs'; injection Hs' as <-. apply set_add_In; auto. }
    match type of H1 with context [resolve_deps ?a1 ?a2 ?a3 ?a4 ?a5 ?a6 ?a7 ?a8] =>
      destruct (resolve_deps a1 a2 a3 a4 a5 a6 a7 a8) as [w1b r1b] eqn:R1 end.
    match type of H2 with context [resolve_deps ?a1 ?a2 ?a3 ?a4 ?a5 ?a6 ?a7 ?a8] =>
      destruct (resolve_deps a1 a2 a3 a4 a5 a6 a7 a8) as [w2b r2b] eqn:R2 end.
    destruct (resolve_sim run_fn _ _ _ _ _ _ _ _ _ _ _ _ _
                (fun p => IH p) (fun g => bind_frame run_fn fuel i g) HS1 R1 R2) as [<- HSb].
    destruct r1b as [[kw unp]|ex]; [|injection H1 as <- <-; injection H2 as <- <-; auto].
    pose proof HSb as (Hib & Eb & V1b & V2b & HRb & HEb).
    rewrite <- Hib in H2.
    destruct (nth_error (injectors w1b) i) as [s2|] eqn:Hs2b;
      [|injection H1 as <- <-; injection H2 as <- <-; auto].
    destruct (callable_memb (lookup_func_of f) (currently_binding s2)) eqn:Hc2;
      [|injection H1 as <- <-; injection H2 as <- <-; auto].
    assert (Hs2w : nth_error (injectors w2b) i = Some s2) by congruence.
    assert (L1 : i < length (injectors w1b)) by (apply nth_error_Some; congruence).
    assert (L2 : i < length (injectors w2b)) by (apply nth_error_Some; congruence).
    rewrite Hs2b in H1; rewrite Hs2w in H2; simpl in H1, H2.
    unfold new_partial in H1, H2; simpl in H1, H2.
    rewrite nth_error_set_nth_eq in H1, H2 by auto; simpl in H1, H2.
    destruct (0 <? length unp) eqn:Hu; simpl in H1, H2;
      rewrite nth_error_set_nth_eq in H1, H2 by (rewrite ?length_set_nth; auto); simpl in H1, H2;
      injection H1 as <- <-; injection H2 as <- <-; rewrite !set_nth_set_nth in *.
    all: split; [reflexivity|].
    all: apply Sim_set_nth with s2; auto; [exists [(f, kw)]; reflexivity|apply BP1|apply BP2| |].
    2,4: intros f0 Hf0; destruct (HEb _ Hf0) as (_ & s' & Hs' & Hin);
      try rewrite Hs2b in Hs'; injection Hs' as <-; simpl; apply in_in_remove'; auto;
      intros ->; destruct (HE _ Hf0) as (_ & s'' & Hs'' & Hin');
      try rewrite Hs in Hs''; injection Hs'' as <-;
      apply callable_memb_In in Hin'; congruence.
    all: intros k Hk Hek; cbn [dependency_map].
    all: destruct (callable_eq_dec k (CPartial i (length (partials s2)))) as [->|Hk'].
    1: now rewrite !dget_dset_eq.
    2: { transitivity (@None deps).
         - apply (wf_reg_fresh w1b); auto; apply (fresh_not_exists i).
           exists (length (partials s2)), s2; auto.
         - symmetry; apply (wf_reg_fresh w2b); auto; apply (fresh_not_exists i).
           exists (length (partials s2)), s2; auto. }
    all: rewrite ?dget_dset_neq by congruence; apply HRb; auto;
      eapply exists_in_set_nth_new with (s' := with_memo _ _); eauto; reflexivity.
Qed.
End BindSim.

Section ResolveFilter.
Variable run_fn : nat -> list value -> kwargs -> option value.

Definition same_outcome (r1 r2 : result (kwargs * deps)) : Prop :=
  match r1, r2 with
  | Ok (kw1, _), Ok (kw2, _) => kw1 = kw2
  | Raise x, Raise y => x = y
  | _, _ => False
  end.

(** Running the loop over [ds] or over its resolvable entries only gives
    the same keywords and the same exceptions. *)
Lemma resolve_filter_sim fuel bindf i e tbl ds kw unp unp' w1 w2 w1' r1 w2' r2 :
  (forall p w1 w2 w1' r1 w2' r2, Sim i e w1 w2 -> exists_in w1 p ->
     bindf p w1 = (w1', r1) -> bindf p w2 = (w2', r2) -> r1 = r2 /\ Sim i e w1' w2') ->
  (forall f w w' r, bindf f w = (w', r) -> wf w -> exists_in w f -> bind_post i f w w' r) ->
  Sim i e w1 w2 ->
  (exists s, nth_error (injectors w1) i = Some s /\ providers s = tbl) ->
  resolve_deps run_fn fuel bindf i ds kw unp w1 = (w1', r1) ->
  resolve_deps run_fn fuel bindf i (filter (fun nx => resolvable tbl (snd nx)) ds)
    kw unp' w2 = (w2', r2) ->
  same_outcome r1 r2 /\ Sim i e w1' w2'.
Proof.
  intros HS HB; revert kw unp unp' w1 w2; induction ds as [|[n x] ds IH];
    intros kw unp unp' w1 w2 Hsim (s & Hs & Hp) Hr1 Hr2; simpl in Hr1, Hr2.
  - injection Hr1 as <- <-; injection Hr2 as <- <-; split; [reflexivity|auto].
  - unfold mbind, get_inj in Hr1; rewrite Hs in Hr1.
    pose proof Hsim as (Hi & E & W1 & W2 & _).
    destruct (find_provider (providers s) x) as [p|] eqn:Hfp.
    2:{ assert (Hn : resolvable tbl x = false) by (unfold resolvable; rewrite <- Hp, Hfp; auto).
        rewrite Hn in Hr2; eapply IH; eauto. }
    assert (Hn : resolvable tbl x = true) by (unfold resolvable; rewrite <- Hp, Hfp; auto).
    rewrite Hn in Hr2.
    simpl in Hr2; unfold mbind, get_inj in Hr2; rewrite <- Hi in Hr2; simpl in Hr2; rewrite Hs in Hr2; simpl in Hr2; rewrite Hfp in Hr2.
    assert (Hex : exists_in w1 p).
    { destruct (find_provider_In _ _ _ Hfp) as [k Hk].
      destruct W1 as [Wi _]; destruct (Wi i s Hs) as (_ & H2 & _); eauto. }
    destruct (bindf p w1) as [w1a ra] eqn:Hb1.
    destruct (bindf p w2) as [w2a ra'] eqn:Hb2.
    destruct (HS p w1 w2 w1a ra w2a ra' Hsim Hex Hb1 Hb2) as [<- Hsim'].
    destruct ra as [b|err].
    2:{ injection Hr1 as <- <-; injection Hr2 as <- <-; split; [reflexivity|auto]. }
    destruct (HB p w1 w1a (Ok b) Hb1 W1 Hex) as ((_ & _ & I1 & _) & _ & Hpost).
    destruct (Hpost b eq_refl) as [Hbex _].
    destruct (I1 s Hs) as (sa & Hsa & Psa & _).
    pose proof Hsim' as (_ & Ea & Wa & _).
    unfold invoke in Hr1, Hr2.
    rewrite (call_sim run_fn fuel w1a w2a b _ _ Ea Wa Hbex) in Hr2.
    destruct (call_fuel run_fn fuel w1a b [VObj x] []) as [v|].
    + eapply IH; eauto. exists sa; split; congruence.
    + injection Hr1 as <- <-; injection Hr2 as <- <-; split; [reflexivity|auto].
Qed.
End ResolveFilter.

Lemma set_add_self x l : In x (set_add x l).
Proof.
  unfold set_add; destruct (callable_memb x l) eqn:E; [apply callable_memb_In; auto|left; auto].
Qed.

Section BindFilter.
Variable run_fn : nat -> list value -> kwargs -> option value.

Lemma bind_filter fuel i f w s ds :
  wf w -> exists_in w f -> nth_error (injectors w) i = Some s ->
  reg_get w (lookup_func_of f) = Some ds ->
  snd (bind run_fn (S fuel) i f w) =
  snd (bind run_fn (S fuel) i f
         (run_op run_fn (OpDependencies [lookup_func_of f]
            (filter (fun nx => resolvable (providers s) (snd nx)) ds)) w)).
Proof.
  intros W Hf Hs Hds.
  set (fds := filter _ ds).
  set (lf := lookup_func_of f).
  assert (Hlf : exists_in w lf) by (apply exists_in_lookup; auto).
  destruct (register_wf fds lf w _ _ W Hlf eq_refl) as [W2 _].
  change (run_op run_fn _ w) with (mkWorld (dset callable_eq_dec (dependency_map w) lf fds) (injectors w)).
  change (fst (register fds lf w)) with (mkWorld (dset callable_eq_dec (dependency_map w) lf fds) (injectors w)) in W2.
  set (w2 := mkWorld _ (injectors w)) in *.
  destruct (bind run_fn (S fuel) i f w) as [w1' r1] eqn:H1.
  destruct (bind run_fn (S fuel) i f w2) as [w2' r2] eqn:H2.
  cbn [snd].
  simpl in H1, H2. unfold mbind, get_inj in H1, H2.
  change (injectors w2) with (injectors w) in H2.
  rewrite Hs in H1, H2.
  fold (memo_get s f) in H1, H2.
  destruct (memo_get s f); [injection H1 as <- <-; injection H2 as <- <-; auto|].
  fold lf in H1, H2.
  destruct (callable_memb lf (currently_binding s)) eqn:Hc.
  { destruct (py_join _ _); injection H1 as <- <-; injection H2 as <- <-; auto. }
  unfold modify_inj in H1, H2; change (injectors w2) with (injectors w) in H2.
  rewrite Hs in H1, H2. simpl in H1, H2.
  destruct (callable_eq_dec lf lf) as [_|C]; [|congruence].
  unfold reg_get in Hds; fold lf in Hds; rewrite Hds in H1.
  set (sb := with_binding s _) in H1, H2.
  destruct (with_binding_step w i s (set_add lf (currently_binding s)) Hs) as [_ U1].
  destruct (with_binding_step w2 i s (set_add lf (currently_binding s)) Hs) as [_ U2].
  assert (L : i < length (injectors w)) by (apply nth_error_Some; congruence).
  assert (HS : Sim i (Some lf) (mkWorld (dependency_map w) (set_nth (injectors w) i sb))
                 (mkWorld (dset callable_eq_dec (dependency_map w) lf fds) (set_nth (injectors w) i sb))).
  { split; [reflexivity|]. split; [exact (Ext_refl _)|].
    split; [apply U1; auto|]. split; [apply U2; auto|]. split.
    - intros k _ Hk; unfold reg_get; cbn [dependency_map].
      rewrite (dget_dset_neq callable_eq_dec); [reflexivity|congruence].
    - intros f0 [= <-]; split.
      + refine (exists_in_Ext _ _ _ (Ext_set_nth w i s sb Hs _) Hlf).
        exists []; now rewrite app_nil_r.
      + exists sb; split; [simpl; apply nth_error_set_nth_eq; auto|apply set_add_self]. }
  match type of H1 with context [resolve_deps ?a1 ?a2 ?a3 ?a4 ?a5 ?a6 ?a7 ?a8] =>
    destruct (resolve_deps a1 a2 a3 a4 a5 a6 a7 a8) as [w1b r1b] eqn:R1 end.
  match type of H2 with context [resolve_deps ?a1 ?a2 ?a3 ?a4 ?a5 ?a6 ?a7 ?a8] =>
    destruct (resolve_deps a1 a2 a3 a4 a5 a6 a7 a8) as [w2b r2b] eqn:R2 end.
  assert (Hex : exists s', nth_error (injectors (mkWorld (dependency_map w) (set_nth (injectors w) i sb))) i = Some s' /\ providers s' = providers s).
  { exists sb; split; [simpl; apply nth_error_set_nth_eq; auto|reflexivity]. }
  destruct (resolve_filter_sim run_fn fuel (bind run_fn fuel i) i (Some lf) (providers s)
              ds [] [] [] _ _ _ _ _ _
              (fun p => bind_sim run_fn fuel i (Some lf) p)
              (fun g => bind_frame run_fn fuel i g) HS Hex R1 R2) as [Ho HSb].
  destruct r1b as [[kw unp]|ex1], r2b as [[kw2 unp2]|ex2]; simpl in Ho; try contradiction.
  2:{ subst ex2; injection H1 as <- <-; injection H2 as <- <-; reflexivity. }
  subst kw2.
  pose proof HSb as (Hib & _).
  rewrite <- Hib in H2.
  destruct (nth_error (injectors w1b) i) as [s2|] eqn:Hs2b;
    [|injection H1 as <- <-; injection H2 as <- <-; auto].
  destruct (callable_memb lf (currently_binding s2)) eqn:Hc2;
    [|injection H1 as <- <-; injection H2 as <- <-; auto].
  assert (Hs2w : nth_error (injectors w2b) i = Some s2) by congruence.
  assert (L1 : i < length (injectors w1b)) by (apply nth_error_Some; congruence).
  assert (L2 : i < length (injectors w2b)) by (apply nth_error_Some; congruence).
  rewrite Hs2b in H1; rewrite Hs2w in H2; simpl in H1, H2.
  unfold new_partial in H1, H2; simpl in H1, H2.
  rewrite nth_error_set_nth_eq in H1, H2 by auto; simpl in H1, H2.
  destruct (0 <? length unp); destruct (0 <? length unp2); simpl in H1, H2;
    rewrite nth_error_set_nth_eq in H1, H2 by (rewrite ?length_set_nth; auto); simpl in H1, H2;
    injection H1 as <- <-; injection H2 as <- <-; reflexivity.
Qed.
End BindFilter.

(** ** Facts about the initial state and the memo check *)

Lemma wf_empty : wf empty_world.
Proof. split; simpl; [intros [|j] s Hs; discriminate|intros k d []]. Qed.

Lemma tables_nodup_empty : tables_nodup empty_world.
Proof. intros [|j] s Hs; discriminate. Qed.

Lemma reachable_from_empty run_fn w :
  reachable run_fn empty_world w -> wf w /\ tables_nodup w.
Proof.
  intros R; split.
  - exact (proj1 (reachable_wf run_fn _ _ R wf_empty)).
  - exact (reachable_nodup run_fn _ _ R wf_empty tables_nodup_empty).
Qed.

Section MemoHit.
Variable run_fn : nat -> list value -> kwargs -> option value.

End MemoHit.

Lemma find_provider_exact_first tbl x :
  find_provider tbl x =
    match dget obj_eq_dec tbl x with
    | Some p => Some p
    | None => dget obj_eq_dec tbl (type_of x)
    end.
Proof.
  unfold find_provider, dmem.
  destruct (dget obj_eq_dec tbl x); auto.
  destruct (dget obj_eq_dec tbl (type_of x)); auto.
Qed.

(** ** The claims *)

Section Claims.
Variable run_fn : nat -> list value -> kwargs -> option value.

(** C1: binding [f] whose declared dependencies name interfaces the
    injector provides and interfaces it provides neither exactly nor by
    kind.  The unresolvable entries never make [bind] fail: the outcome
    is the one of binding [f] with only its resolvable entries declared.
    When [bind] succeeds, the artifact is a new partial object of the
    injector whose keywords hold, for each resolvable parameter, the value
    of invoking the bound provider on the interface, hold nothing for the
    unresolvable ones, and a dependency spec mapping exactly the
    unresolvable names to their interfaces is declared on the artifact. *)
Theorem bind_leaves_unresolvable_open fuel i f w w' a s ds :
  reachable run_fn empty_world w -> exists_in w f ->
  nth_error (injectors w) i = Some s -> memo_get s f = None ->
  ~ In (lookup_func_of f) (currently_binding s) ->
  reg_get w (lookup_func_of f) = Some ds -> NoDup (map fst ds) ->
  snd (bind run_fn (S fuel) i f w) =
    snd (bind run_fn (S fuel) i f
           (run_op run_fn (OpDependencies [lookup_func_of f]
              (filter (fun nx => resolvable (providers s) (snd nx)) ds)) w)) /\
  (bind run_fn (S fuel) i f w = (w', Ok a) ->
   exists s' n kw, a = CPartial i n /\ nth_error (injectors w') i = Some s' /\
     nth_error (partials s') n = Some (f, kw) /\ memo_get s' f = Some a /\
     (forall name x p, In (name, x) ds -> find_provider (providers s) x = Some p ->
        exists p' v, memo_get s' p = Some p' /\
          call_fuel run_fn fuel w' p' [VObj x] [] = Some v /\
          dget string_dec kw name = Some v) /\
     (forall name x, In (name, x) ds -> find_provider (providers s) x = None ->
        dget string_dec kw name = None) /\
     ((exists name x, In (name, x) ds /\ find_provider (providers s) x = None) ->
      exists u, reg_get w' a = Some u /\
        forall name x, dget string_dec u name = Some x <->
                       In (name, x) ds /\ find_provider (providers s) x = None)).
Proof.
  intros R Hf Hs Hm Hcb Hds Hnd.
  destruct (reachable_from_empty run_fn w R) as [W _].
  split; [exact (bind_filter run_fn fuel i f w s ds W Hf Hs Hds)|].
  intros Hr.
  destruct (bind_ok_spec run_fn fuel i f w w' a s ds W Hf Hs Hm Hcb Hds Hnd Hr)
    as (s' & n & kw & Ha & Hs' & Hp & Hma & _ & HA & HB & _ & HD).
  exists s', n, kw; repeat split; auto.
Qed.

(** C2: on each declared dependency the loop of [bind] looks the
    interface up by its exact identity first, and by its kind only when
    the table has no entry for the interface itself. *)
Theorem lookup_exact_before_kind fuel bindf i n x rest kw unp w :
  resolve_deps run_fn fuel bindf i ((n, x) :: rest) kw unp w =
  match nth_error (injectors w) i with
  | None => (w, Raise KeyError)
  | Some s =>
      match match dget obj_eq_dec (providers s) x with
            | Some p => Some p
            | None => dget obj_eq_dec (providers s) (type_of x)
            end with
      | None => resolve_deps run_fn fuel bindf i rest kw (dset string_dec unp n x) w
      | Some p =>
          (p' <- bindf p ;;
           v <- invoke run_fn fuel p' [VObj x] [] ;;
           resolve_deps run_fn fuel bindf i rest (dset string_dec kw n v) unp) w
      end
  end.
Proof.
  simpl; unfold mbind at 1, get_inj.
  destruct (nth_error (injectors w) i) as [s|]; [|reflexivity].
  rewrite find_provider_exact_first.
  destruct (dget obj_eq_dec (providers s) x); [reflexivity|].
  destruct (dget obj_eq_dec (providers s) (type_of x)); reflexivity.
Qed.
End Claims.

(** ** The claims on the examples *)

Lemma xy_world_reachable : reachable Examples.ex_fns empty_world Examples.xy_world.
Proof.
  apply (reach_step _ _ (OpDependencies [CFn 1] Examples.f_deps)).
  { repeat constructor. }
  apply (reach_step _ _ (OpMakeInjector [] (Some [(Examples.X, CFn 2)]))).
  { intros l k p [= <-] [[= <- <-]|[]]; exact I. }
  apply reach_refl.
Qed.

(** Binding [f] on the injector that provides only [X]: [a] is
    pre-filled, [b] is left open and declared on the artifact. *)
Lemma bind_leaves_unresolvable_open_witness :
  reachable Examples.ex_fns empty_world Examples.xy_world /\
  exists s' n kw,
    nth_error (injectors (fst (bind Examples.ex_fns 5 0 (CFn 1) Examples.xy_world))) 0 = Some s' /\
    nth_error (partials s') n = Some (CFn 1, kw) /\
    dget string_dec kw "b"%string = None /\
    exists u, reg_get (fst (bind Examples.ex_fns 5 0 (CFn 1) Examples.xy_world)) (CPartial 0 n) = Some u /\
              dget string_dec u "b"%string = Some Examples.Y.
Proof.
  split; [exact xy_world_reachable|].
  assert (Hb : bind Examples.ex_fns 5 0 (CFn 1) Examples.xy_world =
               (fst (bind Examples.ex_fns 5 0 (CFn 1) Examples.xy_world), Ok (CPartial 0 1)))
    by (vm_compute; reflexivity).
  destruct (bind_leaves_unresolvable_open Examples.ex_fns 4 0 (CFn 1) Examples.xy_world
              (fst (bind Examples.ex_fns 5 0 (CFn 1) Examples.xy_world)) (CPartial 0 1) Examples.xy_injector Examples.f_deps xy_world_reachable I
              ltac:(vm_compute; reflexivity) ltac:(vm_compute; reflexivity)
              ltac:(simpl; tauto) ltac:(vm_compute; reflexivity)
              ltac:(repeat constructor; simpl; intuition discriminate)) as [_ H2].
  destruct (H2 Hb) as (s' & n & kw & Ha & Hs' & Hp & _ & _ & HB & HD).
  injection Ha as <-.
  exists s', 1, kw; split; [exact Hs'|split; [exact Hp|split]].
  - apply (HB _ Examples.Y); [right; left; reflexivity|vm_compute; reflexivity].
  - destruct HD as (u & Hu & Hiff).
    + exists "b"%string, Examples.Y; split; [right; left; reflexivity|vm_compute; reflexivity].
    + exists u; split; [exact Hu|apply Hiff; split; [right; left; reflexivity|vm_compute; reflexivity]].
Defined.

Section MoreClaims.
Variable run_fn : nat -> list value -> kwargs -> option value.

End MoreClaims.




(** C5: [f] depends on [a: X] and [X]'s provider raises.  The failing
    [bind] leaves [f] in [currently_binding] (there is no [try]/[finally]),
    so binding [f] again raises [TypeError] (the cycle branch) where the
    first attempt raised the provider's error. *)
Theorem failed_bind_stays_binding :
  let r := bind Examples.ex_fns 5 0 (CFn 1) Examples.failing_world in
  snd r = Raise CallFailed /\
  (exists s, nth_error (injectors (fst r)) 0 = Some s /\ In (CFn 1) (currently_binding s)) /\
  snd (bind Examples.ex_fns 5 0 (CFn 1) (fst r)) = Raise TypeError.
Proof.
  simpl; split; [vm_compute; reflexivity|split].
  - eexists; split; [vm_compute; reflexivity|left; reflexivity].
  - vm_compute; reflexivity.
Qed.

Section InjectorClaims.
Variable run_fn : nat -> list value -> kwargs -> option value.

(** C7: the table of every injector [i] maps the [Injector] key to the
    self provider of [i], which returns [i] itself; so when [i] binds a
    callable declaring a parameter [n] on [Injector], the artifact holds
    [i] -- the injector performing the bind, a child when a child binds --
    for [n]. *)
Theorem injector_provides_itself fuel i w s f w' a ds n :
  reachable run_fn empty_world w -> nth_error (injectors w) i = Some s ->
  dget obj_eq_dec (providers s) Injector = Some (CSelfProv i) /\
  (forall fuel' x, call_fuel run_fn fuel' w (CSelfProv i) [VObj x] [] = Some (VInj i)) /\
  (exists_in w f -> memo_get s f = None -> ~ In (lookup_func_of f) (currently_binding s) ->
   reg_get w (lookup_func_of f) = Some ds -> NoDup (map fst ds) -> In (n, Injector) ds ->
   bind run_fn (S fuel) i f w = (w', Ok a) ->
   exists s' m kw, a = CPartial i m /\ nth_error (injectors w') i = Some s' /\
     nth_error (partials s') m = Some (f, kw) /\ dget string_dec kw n = Some (VInj i)).
Proof.
  intros R Hs.
  destruct (reachable_from_empty run_fn w R) as [W _].
  assert (Hi : dget obj_eq_dec (providers s) Injector = Some (CSelfProv i))
    by (destruct W as [Wi _]; exact (proj1 (Wi i s Hs))).
  split; [exact Hi|split; [intros [|fuel'] x; reflexivity|]].
  intros Hf Hm Hcb Hds Hnd Hn Hr.
  destruct (bind_ok_spec run_fn fuel i f w w' a s ds W Hf Hs Hm Hcb Hds Hnd Hr)
    as (s' & m & kw & Ha & Hs' & Hp & _ & _ & HA & _).
  exists s', m, kw; repeat split; auto.
  assert (Hfp : find_provider (providers s) Injector = Some (CSelfProv i))
    by (rewrite find_provider_exact_first, Hi; reflexivity).
  destruct (HA n Injector _ Hn Hfp) as (p' & v & Hmp & Hc & Hkw).
  rewrite Hkw; f_equal.
  destruct (bind_frame run_fn (S fuel) i f w w' (Ok a) Hr W Hf) as (_ & W' & _).
  destruct W' as [Wi' _]; destruct (Wi' i s' Hs') as (_ & _ & _ & Hinj).
  destruct (Hinj _ _ Hmp) as (m' & kw0 & -> & Hm').
  destruct fuel as [|fuel]; [discriminate|].
  simpl in Hc; unfold partial_entry in Hc; rewrite Hs', Hm' in Hc.
  destruct fuel as [|fuel]; simpl in Hc; destruct kw0; congruence.
Qed.
End InjectorClaims.

Lemma family_world_reachable run_fn : reachable run_fn empty_world Examples.family_world.
Proof.
  apply (reach_step _ _ (OpDependencies [CFn 5] Examples.inj_deps)); [repeat constructor|].
  apply (reach_step _ _ (OpMakeInjector [] None)); [intros l k p [=]|].
  apply (reach_step _ _ (OpSpecialize 0 [] None)); [intros l k p [=]|apply reach_refl].
Qed.

(** The child [1] binds [p]: the [injector] parameter receives the child. *)
Lemma injector_provides_itself_witness :
  exists s' m kw,
    nth_error (injectors (fst (bind Examples.ex_fns 2 1 (CFn 5) Examples.family_world))) 1 = Some s' /\
    nth_error (partials s') m = Some (CFn 5, kw) /\
    dget string_dec kw "injector"%string = Some (VInj 1).
Proof.
  destruct (injector_provides_itself Examples.ex_fns 1 1 Examples.family_world
              (mkInjector [(Injector, CSelfProv 1)] [] [] []) (CFn 5)
              (fst (bind Examples.ex_fns 2 1 (CFn 5) Examples.family_world))
              (CPartial 1 1) Examples.inj_deps "injector"%string
              (family_world_reachable _) ltac:(vm_compute; reflexivity))
    as (_ & _ & H).
  destruct (H I ltac:(vm_compute; reflexivity) ltac:(simpl; tauto)
              ltac:(vm_compute; reflexivity) ltac:(repeat constructor; simpl; tauto)
              ltac:(left; reflexivity) ltac:(vm_compute; reflexivity))
    as (s' & m & kw & _ & Hs' & Hp & Hkw).
  exists s', m, kw; auto.
Defined.


(** ** Interfaces *)

Module InterfaceFacts.
Import Interfaces.








End InterfaceFacts.




(** ** [specialize] *)

Lemma specialize_child i sets lp w s w' c :
  tables_nodup w -> nth_error (injectors w) i = Some s ->
  (forall l, lp = Some l -> NoDup (map fst l)) ->
  specialize i sets lp w = (w', Ok c) ->
  c = length (injectors w) /\ nth_error (injectors w') i = Some s /\
  exists t, nth_error (injectors w') c = Some t /\
    currently_binding t = [] /\ bound_funcs t = [] /\
    forall k, dget obj_eq_dec (providers t) k =
      if obj_eq_dec k Injector then Some (CSelfProv c)
      else match (match lp with Some l => dget obj_eq_dec l k | None => None end) with
           | Some p => Some p
           | None =>
               match dget obj_eq_dec (providers s) k with
               | Some p => Some p
               | None => dget obj_eq_dec (sets_table sets []) k
               end
           end.
Proof.
  intros Hn Hs Hl Hr.
  destruct (specialize_spec i sets lp w s Hs) as (reg' & E & _).
  rewrite Hr in E; injection E as -> ->.
  assert (L : i < length (injectors w)) by (apply nth_error_Some; congruence).
  split; [reflexivity|split].
  - simpl; rewrite nth_error_app1 by auto; exact Hs.
  - eexists; split; [simpl; rewrite nth_error_app2, Nat.sub_diag by lia; reflexivity|].
    split; [reflexivity|split; [reflexivity|]].
    intros k; apply child_table_lookup; [exact (Hn i s Hs)|exact Hl].
Qed.

Section BindAllProvided.
Variable run_fn : nat -> list value -> kwargs -> option value.

Lemma bind_all_provided_reg fuel i f w w' a s ds :
  wf w -> exists_in w f ->
  nth_error (injectors w) i = Some s -> memo_get s f = None ->
  ~ In (lookup_func_of f) (currently_binding s) ->
  reg_get w (lookup_func_of f) = Some ds -> NoDup (map fst ds) ->
  (forall name x, In (name, x) ds -> find_provider (providers s) x <> None) ->
  bind run_fn (S fuel) i f w = (w', Ok a) ->
  reg_get w' a = None.
Proof.
  intros Hw Hf Hs Hm Hnin Hds Hnd Hall Hr.
  simpl in Hr; unfold mbind, get_inj in Hr; rewrite Hs in Hr.
  fold (memo_get s f) in Hr; rewrite Hm in Hr.
  assert (Hc : callable_memb (lookup_func_of f) (currently_binding s) = false).
  { destruct (callable_memb _ _) eqn:E; auto; apply callable_memb_In in E; contradiction. }
  rewrite Hc in Hr.
  unfold modify_inj in Hr; rewrite Hs in Hr; simpl in Hr.
  destruct (with_binding_step w i s (set_add (lookup_func_of f) (currently_binding s)) Hs) as [S1 W1].
  specialize (W1 Hw).
  set (sa := with_binding s (set_add (lookup_func_of f) (currently_binding s))) in *.
  set (w1 := mkWorld _ (set_nth _ i sa)) in *.
  assert (Hs1 : nth_error (injectors w1) i = Some sa)
    by (apply nth_error_set_nth_eq, nth_error_Some; congruence).
  unfold reg_get in Hds; unfold get_world in Hr; simpl in Hr; rewrite Hds in Hr.
  destruct (resolve_deps run_fn fuel (bind run_fn fuel i) i ds [] [] w1)
    as [w2 [[kw unp]|e]] eqn:Hres; [|discriminate].
  destruct (resolve_spec run_fn fuel (bind run_fn fuel i) i ds [] [] w1 w2 kw unp sa
              (fun g => bind_frame run_fn fuel i g) Hnd W1 Hs1 Hres)
    as (S2 & W2 & s2 & Hs2 & HA & HB & HC).
  pose proof (resolve_cb run_fn _ _ _ _ _ _ _ _ _ (fun p w w' b => bind_cb run_fn fuel i p w w' b) Hres) as C12.
  destruct (C12 sa Hs1) as (s2' & Hs2' & E2 & M2).
  rewrite Hs2 in Hs2'; injection Hs2' as <-.
  rewrite Hs2 in Hr.
  assert (Hcb : currently_binding s2 = lookup_func_of f :: currently_binding s).
  { rewrite E2; unfold sa, with_binding, set_add; simpl; now rewrite Hc. }
  destruct (callable_memb (lookup_func_of f) (currently_binding s2)) eqn:Hc2.
  2:{ rewrite Hcb in Hc2; simpl in Hc2; destruct (callable_eq_dec _ _); simpl in Hc2; congruence. }
  rewrite Hs2 in Hr. simpl in Hr.
  assert (Hlt : i < length (injectors w2)) by (apply nth_error_Some; congruence).
  unfold new_partial in Hr; simpl in Hr.
  rewrite nth_error_set_nth_eq in Hr by auto. simpl in Hr.
  assert (Psa : providers sa = providers s) by reflexivity.
  rewrite Psa in HA, HB.
  destruct (0 <? length unp) eqn:Hu; simpl in Hr.
  - exfalso. destruct unp as [|[nm x] unp]; [discriminate|].
    assert (Hx : dget string_dec ((nm, x) :: unp) nm = Some x)
      by (simpl; destruct (string_dec nm nm); congruence).
    destruct (in_dec string_dec nm (map fst ds)) as [Hn|Hn].
    + apply in_map_iff in Hn as ([nm' x'] & Heq & Hin); simpl in Heq; subst nm'.
      destruct (find_provider (providers s) x') as [p|] eqn:Hp.
      * destruct (HA nm x' p Hin Hp) as (_ & _ & _ & _ & _ & U); rewrite U in Hx; discriminate.
      * exact (Hall nm x' Hin Hp).
    + destruct (HC nm Hn) as [_ U]; rewrite U in Hx; discriminate.
  - rewrite nth_error_set_nth_eq in Hr by (rewrite ?length_set_nth; auto); simpl in Hr.
    injection Hr as <- <-.
    unfold reg_get; cbn [dependency_map].
    destruct (dget callable_eq_dec (dependency_map w2) (CPartial i (length (partials s2))))
      as [d|] eqn:E; [|reflexivity].
    exfalso. destruct W2 as [_ Wr].
    apply (dget_In callable_eq_dec), Wr in E; simpl in E.
    destruct E as (t & Ht & Hlen); rewrite Hs2 in Ht; injection Ht as <-; lia.
Qed.
End BindAllProvided.

Section TableChange.
Variable j : nat.
Variable tbl : list (obj * callable).


















Variable run_fn : nat -> list value -> kwargs -> option value.




End TableChange.

Section SpecializeClaims.
Variable run_fn : nat -> list value -> kwargs -> option value.

End SpecializeClaims.


(** On the same example, the child's artifact of [f] has both parameters
    filled, the parent's still needs [b]. *)
Lemma xy_child_resolves_both :
  (let '(w, r) := bind Examples.ex_fns 5 1 (CFn 1) Examples.xy_child_world in
   match r with
   | Ok c => call_fuel Examples.ex_fns 5 w c [] [] = Some (VPair (VStr "hi") (VStr "cheese"))
   | Raise _ => False
   end) /\
  (let '(w, r) := bind Examples.ex_fns 5 0 (CFn 1)
                    (fst (bind Examples.ex_fns 5 1 (CFn 1) Examples.xy_child_world)) in
   match r with
   | Ok c => call_fuel Examples.ex_fns 5 w c [] [] = None /\
             call_fuel Examples.ex_fns 5 w c [] [("b"%string, VStr "v")] =
               Some (VPair (VStr "hi") (VStr "v"))
   | Raise _ => False
   end).
Proof. vm_compute; split; [reflexivity|split; reflexivity]. Qed.


Section PrecedenceClaim.
Variable run_fn : nat -> list value -> kwargs -> option value.

(** C10, as the code does it: the table of the child made by
    [specialize( *sets, local_providers=O)] of injector [i] maps
    [Injector] to the child's self provider; every other key to [O]'s
    entry, else to [i]'s, else to the entry of the provider sets. *)
Theorem specialize_table_precedence i sets lp w s w' c k :
  reachable run_fn empty_world w -> nth_error (injectors w) i = Some s ->
  (forall l, lp = Some l -> NoDup (map fst l)) ->
  specialize i sets lp w = (w', Ok c) ->
  exists t, nth_error (injectors w') c = Some t /\
    dget obj_eq_dec (providers t) k =
      if obj_eq_dec k Injector then Some (CSelfProv c)
      else match (match lp with Some l => dget obj_eq_dec l k | None => None end) with
           | Some p => Some p
           | None =>
               match dget obj_eq_dec (providers s) k with
               | Some p => Some p
               | None => dget obj_eq_dec (sets_table sets []) k
               end
           end.
Proof.
  intros R Hs Hl Hr.
  destruct (reachable_from_empty run_fn w R) as [_ Hn].
  destruct (specialize_child i sets lp w s w' c Hn Hs Hl Hr) as (_ & _ & t & Ht & _ & _ & Hk).
  exists t; split; auto.
Qed.
End PrecedenceClaim.

(** A provider set given to [specialize] that provides [X], which the
    parent provides too: the child keeps the parent's provider. *)
Lemma specialize_table_precedence_witness :
  exists t, nth_error (injectors Examples.x_set_world) 1 = Some t /\
    dget obj_eq_dec (providers t) Examples.X = Some (CFn 2).
Proof.
  destruct (specialize_table_precedence Examples.ex_fns 0 [Examples.x_set] None Examples.xy_world
              Examples.xy_injector Examples.x_set_world 1 Examples.X
              xy_world_reachable ltac:(vm_compute; reflexivity) ltac:(intros l [=])
              ltac:(vm_compute; reflexivity)) as (t & Ht & Hk).
  exists t; split; [exact Ht|rewrite Hk; vm_compute; reflexivity].
Defined.

(** A provider set given to [specialize] that provides the [Injector] key:
    neither the parent's entry nor the set's ends up in the child. *)
Lemma specialize_set_injector_key :
  option_map (fun t => dget obj_eq_dec (providers t) Injector)
    (nth_error (injectors Examples.injector_set_world) 0) = Some (Some (CSelfProv 0)) /\
  dget obj_eq_dec (sets_table [Examples.injector_set] []) Injector =
    Some (CMethod 3 (OInst 14 104)) /\
  option_map (fun t => dget obj_eq_dec (providers t) Injector)
    (nth_error (injectors Examples.injector_set_world) 1) = Some (Some (CSelfProv 1)).
Proof. repeat split; vm_compute; reflexivity. Qed.


(** * Further properties of the code *)


(** ** [ProviderSetMeta] *)

Module ProviderSetFacts.
Import ProviderSets.

Lemma existsb_provider_In p s :
  existsb (fun q => if provider_impl_eq_dec q p then true else false) s = true <-> In p s.
Proof.
  rewrite existsb_exists; split.
  - intros (q & Hq & E); destruct (provider_impl_eq_dec q p) as [<-|]; [exact Hq|discriminate].
  - intros Hp; exists p; split; auto; destruct (provider_impl_eq_dec p p); congruence.
Qed.

Lemma pset_add_In p s q : In q (pset_add p s) <-> In q s \/ q = p.
Proof.
  unfold pset_add.
  destruct (existsb _ s) eqn:E.
  - apply existsb_provider_In in E; split; [auto|intros [H| ->]; auto].
  - rewrite in_app_iff; simpl; split; intros [H|H]; auto; destruct H as [<-|[]]; auto.
Qed.

Lemma pset_add_NoDup p s : NoDup s -> NoDup (pset_add p s).
Proof.
  intros Hs; unfold pset_add.
  destruct (existsb _ s) eqn:E; [exact Hs|].
  apply NoDup_app; [exact Hs|constructor; [intros []|constructor]|].
  intros x Hx [Ex|[]]; subst x.
  apply existsb_provider_In in Hx; congruence.
Qed.

Lemma pset_update_In s l q : In q (pset_update s l) <-> In q s \/ In q l.
Proof.
  unfold pset_update; revert s; induction l as [|p l IH]; intros s; simpl.
  - tauto.
  - rewrite IH, pset_add_In; intuition.
Qed.

Lemma pset_update_NoDup s l : NoDup s -> NoDup (pset_update s l).
Proof.
  unfold pset_update; revert s; induction l as [|p l IH]; intros s Hs; simpl; auto.
  apply IH, pset_add_NoDup, Hs.
Qed.

Lemma meta_bases_spec bases s :
  NoDup s ->
  let r := fold_left (fun acc b => match b with Some l => pset_update acc l | None => acc end) bases s in
  NoDup r /\ forall q, In q r <-> In q s \/ exists l, In (Some l) bases /\ In q l.
Proof.
  revert s; induction bases as [|b bases IH]; intros s Hs; simpl.
  - split; [exact Hs|intros q; split; [auto|intros [H|(l & [] & _)]; auto]].
  - destruct b as [l|].
    + destruct (IH (pset_update s l) (pset_update_NoDup s l Hs)) as [N I].
      split; [exact N|intros q; rewrite I, pset_update_In].
      split.
      * intros [[H|H]|(l' & Hl' & Hq)]; eauto.
      * intros [H|(l' & [E|Hl'] & Hq)]; [auto|injection E as ->; auto|eauto].
    + destruct (IH s Hs) as [N I]; split; [exact N|intros q; rewrite I].
      split; [intros [H|(l' & Hl' & Hq)]; eauto|].
      intros [H|(l' & [E|Hl'] & Hq)]; [auto|discriminate|eauto].
Qed.

Lemma meta_body_spec (body : list (string * member)) s :
  NoDup s ->
  let r := fold_left (fun acc nm => match snd nm with
                                    | MProvider p => pset_add p acc
                                    | MFunc _ | MData => acc
                                    end) body s in
  NoDup r /\ forall q, In q r <-> In q s \/ exists name, In (name, MProvider q) body.
Proof.
  revert s; induction body as [|[n m] body IH]; intros s Hs; simpl.
  - split; [exact Hs|intros q; split; [auto|intros [H|(x & [])]; auto]].
  - destruct m as [f|p|].
    all: try (destruct (IH s Hs) as [N I]; split; [exact N|intros q; rewrite I];
              split; [intros [H|(x & Hx)]; eauto|];
              intros [H|(x & [E|Hx])]; [auto|discriminate|eauto]).
    destruct (IH (pset_add p s) (pset_add_NoDup p s Hs)) as [N I].
    split; [exact N|intros q; rewrite I, pset_add_In].
    split.
    + intros [[H| ->]|(x & Hx)]; eauto.
    + intros [H|(x & [E|Hx])]; [auto|injection E as -> ->; auto|eauto].
Qed.

End ProviderSetFacts.

(** X1: the [providers] set of a class made by [ProviderSetMeta] holds,
    once each, the providers of every base that has a [providers]
    attribute and every function of the class body decorated with
    [ProviderSet.provide], and nothing else.  So a base's provider stays a
    provider of the subclass even when the subclass body redefines its
    name with an undecorated function. *)
Theorem meta_providers_members bases body :
  NoDup (ProviderSets.meta_providers bases body) /\
  forall p, In p (ProviderSets.meta_providers bases body) <->
    (exists l, In (Some l) bases /\ In p l) \/
    (exists name, In (name, ProviderSets.MProvider p) body).
Proof.
  unfold ProviderSets.meta_providers.
  destruct (ProviderSetFacts.meta_bases_spec bases [] (NoDup_nil _)) as [N1 I1].
  destruct (ProviderSetFacts.meta_body_spec body _ N1) as [N2 I2].
  split; [exact N2|intros p; rewrite I2, I1].
  split; [intros [[[]|H]|H]; auto|intros [H|H]; auto].
Qed.


(** ** What [Injector.__init__] builds *)

Lemma fold_dset_lookup (xs : list obj) (v : callable) tbl k :
  dget obj_eq_dec (fold_left (fun t x => dset obj_eq_dec t x v) xs tbl) k =
    if in_dec obj_eq_dec k xs then Some v else dget obj_eq_dec tbl k.
Proof.
  revert tbl; induction xs as [|x xs IH]; intros tbl; [reflexivity|].
  cbn [fold_left]; rewrite IH.
  destruct (in_dec obj_eq_dec k xs) as [H|H];
    destruct (in_dec obj_eq_dec k (x :: xs)) as [H'|H']; try reflexivity.
  - exfalso; apply H'; simpl; auto.
  - destruct H' as [<-|H']; [|contradiction]. apply (dget_dset_eq obj_eq_dec).
  - apply (dget_dset_neq obj_eq_dec); intros <-; apply H'; simpl; auto.
Qed.

Definition provides_key (k : obj) (impls : list provider_impl) : Prop :=
  exists impl, In impl impls /\ In k (provider_interfaces impl).

Lemma provides_key_dec k impls : {provides_key k impls} + {~ provides_key k impls}.
Proof.
  induction impls as [|impl rest IH].
  - right; intros (i & [] & _).
  - destruct (in_dec obj_eq_dec k (provider_interfaces impl)) as [H|H].
    + left; exists impl; simpl; auto.
    + destruct IH as [IH|IH].
      * left; destruct IH as (i & Hi & Hk); exists i; simpl; auto.
      * right; intros (i & [<-|Hi] & Hk); [contradiction|apply IH; exists i; auto].
Qed.

Lemma impls_table_none ps impls tbl k :
  ~ provides_key k impls ->
  dget obj_eq_dec (impls_table ps impls tbl) k = dget obj_eq_dec tbl k.
Proof.
  revert tbl; induction impls as [|impl rest IH]; intros tbl Hn; simpl; auto.
  rewrite IH by (intros (i & Hi & Hk); apply Hn; exists i; simpl; auto).
  rewrite fold_dset_lookup.
  destruct (in_dec obj_eq_dec k (provider_interfaces impl)); auto.
  exfalso; apply Hn; exists impl; simpl; auto.
Qed.

Lemma impls_table_some ps impls tbl k :
  provides_key k impls ->
  exists impl, In impl impls /\ In k (provider_interfaces impl) /\
    dget obj_eq_dec (impls_table ps impls tbl) k = Some (CMethod (impl_fn impl) ps).
Proof.
  revert tbl; induction impls as [|impl rest IH]; intros tbl Hp; simpl.
  - destruct Hp as (i & [] & _).
  - destruct (provides_key_dec k rest) as [Hr|Hr].
    + edestruct IH as (i & Hi & Hk & E); [exact Hr|]; exists i; simpl; eauto.
    + exists impl. rewrite impls_table_none by exact Hr. rewrite fold_dset_lookup.
      destruct (in_dec obj_eq_dec k (provider_interfaces impl)) as [H|H]; [auto|].
      exfalso; destruct Hp as (i & [<-|Hi] & Hk); [contradiction|apply Hr; exists i; auto].
Qed.

Lemma impls_table_lookup ps impls tbl k p :
  dget obj_eq_dec (impls_table ps impls tbl) k = Some p ->
  dget obj_eq_dec tbl k = Some p \/
  exists impl, In impl impls /\ In k (provider_interfaces impl) /\ p = CMethod (impl_fn impl) ps.
Proof.
  destruct (provides_key_dec k impls) as [H|H].
  - destruct (impls_table_some ps impls tbl k H) as (i & Hi & Hk & E).
    rewrite E; intros [= <-]; right; eauto.
  - rewrite impls_table_none by exact H; auto.
Qed.

Definition sets_provide (k : obj) (sets : list provider_set) : Prop :=
  exists ps, In ps sets /\ provides_key k (ps_providers ps).

Lemma sets_provide_dec k sets : {sets_provide k sets} + {~ sets_provide k sets}.
Proof.
  induction sets as [|ps rest IH].
  - right; intros (p & [] & _).
  - destruct (provides_key_dec k (ps_providers ps)) as [H|H].
    + left; exists ps; simpl; auto.
    + destruct IH as [IH|IH].
      * left; destruct IH as (p & Hp & Hk); exists p; simpl; auto.
      * right; intros (p & [<-|Hp] & Hk); [contradiction|apply IH; exists p; auto].
Qed.

Lemma sets_table_none sets tbl k :
  ~ sets_provide k sets -> dget obj_eq_dec (sets_table sets tbl) k = dget obj_eq_dec tbl k.
Proof.
  revert tbl; induction sets as [|ps rest IH]; intros tbl Hn; simpl; auto.
  rewrite IH by (intros (p & Hp & Hk); apply Hn; exists p; simpl; auto).
  apply impls_table_none; intros H; apply Hn; exists ps; simpl; auto.
Qed.

Lemma sets_table_lookup sets tbl k p :
  dget obj_eq_dec (sets_table sets tbl) k = Some p ->
  dget obj_eq_dec tbl k = Some p \/
  exists ps impl, In ps sets /\ In impl (ps_providers ps) /\ In k (provider_interfaces impl) /\
    p = CMethod (impl_fn impl) (ps_self ps).
Proof.
  revert tbl; induction sets as [|ps rest IH]; intros tbl H; simpl in H; auto.
  apply IH in H as [H|(ps' & i & Hps & Hi & Hk & E)].
  - apply impls_table_lookup in H as [H|(i & Hi & Hk & E)]; auto.
    right; exists ps, i; simpl; auto.
  - right; exists ps', i; simpl; auto.
Qed.

Lemma sets_table_some sets tbl k :
  sets_provide k sets -> dget obj_eq_dec (sets_table sets tbl) k <> None.
Proof.
  revert tbl; induction sets as [|ps rest IH]; intros tbl Hp; simpl.
  - destruct Hp as (p & [] & _).
  - destruct (sets_provide_dec k rest) as [Hr|Hr]; [now apply IH|].
    rewrite sets_table_none by exact Hr.
    destruct Hp as (p & [E|Hp] & Hk); [subst p|exfalso; apply Hr; exists p; auto].
    destruct (impls_table_some (ps_self ps) (ps_providers ps) tbl k Hk) as (i & _ & _ & ->).
    discriminate.
Qed.

Lemma sets_table_app pre post tbl :
  sets_table (pre ++ post) tbl = sets_table post (sets_table pre tbl).
Proof. revert tbl; induction pre as [|ps pre IH]; intros tbl; simpl; auto. Qed.

Lemma sets_table_last pre ps post tbl k :
  provides_key k (ps_providers ps) -> ~ sets_provide k post ->
  exists impl, In impl (ps_providers ps) /\ In k (provider_interfaces impl) /\
    dget obj_eq_dec (sets_table (pre ++ ps :: post) tbl) k = Some (CMethod (impl_fn impl) (ps_self ps)).
Proof.
  intros Hp Hn; rewrite sets_table_app; simpl.
  rewrite sets_table_none by exact Hn.
  apply impls_table_some, Hp.
Qed.

(** ** Registration of the providers' dependencies *)

Definition reg_step (r : list (callable * deps)) (impl : provider_impl) : list (callable * deps) :=
  dset callable_eq_dec r (CFn (impl_fn impl)) (provider_dependencies impl).

Lemma add_impls_reg ps impls tbl w :
  add_impls ps impls tbl w =
    (mkWorld (fold_left reg_step impls (dependency_map w)) (injectors w),
     Ok (impls_table ps impls tbl)).
Proof.
  revert tbl w; induction impls as [|impl rest IH]; intros tbl w; simpl.
  - now destruct w.
  - unfold mbind; simpl. rewrite IH; reflexivity.
Qed.

Lemma add_sets_reg sets tbl w :
  add_sets sets tbl w =
    (mkWorld (fold_left reg_step (flat_map ps_providers sets) (dependency_map w)) (injectors w),
     Ok (sets_table sets tbl)).
Proof.
  revert tbl w; induction sets as [|ps rest IH]; intros tbl w; simpl.
  - now destruct w.
  - unfold mbind; rewrite add_impls_reg, IH; simpl.
    now rewrite fold_left_app.
Qed.

Lemma Injector_init_reg sets lp w :
  Injector_init sets lp w =
    (mkWorld (fold_left reg_step (flat_map ps_providers sets) (dependency_map w))
       (injectors w ++ [mkInjector (init_table (length (injectors w)) sets lp) [] [] []]),
     Ok (length (injectors w))).
Proof.
  unfold Injector_init, mbind, get_world; simpl; rewrite add_sets_reg; reflexivity.
Qed.

Lemma reg_fold_none impls r k :
  (forall impl, In impl impls -> k <> CFn (impl_fn impl)) ->
  dget callable_eq_dec (fold_left reg_step impls r) k = dget callable_eq_dec r k.
Proof.
  revert r; induction impls as [|impl rest IH]; intros r Hn; simpl; auto.
  rewrite IH by (intros i Hi; apply Hn; simpl; auto).
  unfold reg_step; apply (dget_dset_neq callable_eq_dec).
  intros E; apply (Hn impl); simpl; auto.
Qed.

Lemma reg_fold_some impls r f d :
  (exists impl, In impl impls /\ impl_fn impl = f) ->
  (forall impl, In impl impls -> impl_fn impl = f -> provider_dependencies impl = d) ->
  dget callable_eq_dec (fold_left reg_step impls r) (CFn f) = Some d.
Proof.
  revert r; induction impls as [|impl rest IH]; intros r He Hc; simpl.
  - destruct He as (i & [] & _).
  - destruct (in_dec Nat.eq_dec f (map impl_fn rest)) as [Hr|Hr].
    + apply in_map_iff in Hr as (i & Hf & Hi).
      apply IH; [eauto|intros i' Hi'; apply Hc; simpl; auto].
    + rewrite reg_fold_none.
      2:{ intros i Hi E; injection E as E; apply Hr; rewrite E; now apply in_map. }
      destruct He as (i & [<-|Hi] & Hf).
      * unfold reg_step; rewrite Hf, (dget_dset_eq callable_eq_dec).
        f_equal; apply Hc; simpl; auto.
      * exfalso; apply Hr; rewrite <- Hf; now apply in_map.
Qed.

Lemma init_table_lookup self sets lp k :
  k <> Injector -> (forall l, lp = Some l -> NoDup (map fst l)) ->
  dget obj_eq_dec (init_table self sets lp) k =
    match (match lp with Some l => dget obj_eq_dec l k | None => None end) with
    | Some p => Some p
    | None => dget obj_eq_dec (sets_table sets []) k
    end.
Proof.
  intros Hk Hl; destruct lp as [l|].
  - apply init_table_other; auto.
  - unfold init_table; apply (dget_dset_neq obj_eq_dec); congruence.
Qed.

Lemma make_injector_new sets lp w w' c :
  make_injector sets lp w = (w', Ok c) ->
  c = length (injectors w) /\
  w' = mkWorld (fold_left reg_step (flat_map ps_providers sets) (dependency_map w))
         (injectors w ++ [mkInjector (init_table c sets lp) [] [] []]).
Proof.
  unfold make_injector; rewrite Injector_init_reg; intros [= <- <-]; auto.
Qed.

Lemma nth_error_last {A} (l : list A) x : nth_error (l ++ [x]) (length l) = Some x.
Proof. rewrite nth_error_app2, Nat.sub_diag by lia; reflexivity. Qed.

(** X2: [make_injector( *sets, local_providers=L)] adds one injector, numbered
    after the existing ones, which it leaves as they were; the new
    injector binds nothing yet and has an empty memo; its table maps
    [Injector] to its own self provider, every other key of [L] to [L]'s
    entry, and any other interface to a method of one of the given
    provider sets' providers that lists it, bound to that provider set --
    and has no entry for an interface no provider lists. *)
Theorem make_injector_table sets lp w w' c :
  (forall l, lp = Some l -> NoDup (map fst l)) ->
  make_injector sets lp w = (w', Ok c) ->
  c = length (injectors w) /\ length (injectors w') = S c /\
  (forall j, j < c -> nth_error (injectors w') j = nth_error (injectors w) j) /\
  exists t, nth_error (injectors w') c = Some t /\
    currently_binding t = [] /\ bound_funcs t = [] /\
    dget obj_eq_dec (providers t) Injector = Some (CSelfProv c) /\
    forall k, k <> Injector ->
      match (match lp with Some l => dget obj_eq_dec l k | None => None end) with
      | Some p => dget obj_eq_dec (providers t) k = Some p
      | None =>
          (forall p, dget obj_eq_dec (providers t) k = Some p ->
             exists ps impl, In ps sets /\ In impl (ps_providers ps) /\
               In k (provider_interfaces impl) /\ p = CMethod (impl_fn impl) (ps_self ps)) /\
          (dget obj_eq_dec (providers t) k = None <->
             ~ exists ps impl, In ps sets /\ In impl (ps_providers ps) /\
                 In k (provider_interfaces impl))
      end.
Proof.
  intros Hl Hr; destruct (make_injector_new sets lp w w' c Hr) as [-> ->].
  split; [reflexivity|split; [simpl; rewrite length_app; simpl; lia|split]].
  - intros j Hj; simpl; apply nth_error_app1; auto.
  - eexists; split; [apply nth_error_last|]; cbn [currently_binding bound_funcs providers].
    split; [reflexivity|split; [reflexivity|split; [apply init_table_Injector|]]].
    intros k Hk; rewrite (init_table_lookup _ _ _ _ Hk Hl).
    destruct (match lp with Some l => dget obj_eq_dec l k | None => None end); [reflexivity|].
    split.
    + intros p Hp; apply sets_table_lookup in Hp as [Hp|Hp]; [discriminate|exact Hp].
    + split.
      * intros Hn (ps & impl & Hps & Hi & Hki).
        apply (sets_table_some sets [] k); [|exact Hn].
        exists ps; split; [exact Hps|exists impl; auto].
      * intros Hn; destruct (dget obj_eq_dec (sets_table sets []) k) as [p|] eqn:E; [|reflexivity].
        exfalso; apply sets_table_lookup in E as [E|(ps & impl & Hps & Hi & Hki & _)];
          [discriminate|apply Hn; eauto].
Qed.

(** Witness: a provider set that provides [X], and [local_providers] that
    provide [Y]. *)
Lemma make_injector_table_witness :
  exists t, nth_error (injectors (fst (make_injector [Examples.x_set]
                                        (Some [(Examples.Y, CFn 3)]) empty_world))) 0 = Some t /\
    dget obj_eq_dec (providers t) Injector = Some (CSelfProv 0) /\
    dget obj_eq_dec (providers t) Examples.Y = Some (CFn 3).
Proof.
  destruct (make_injector_table [Examples.x_set] (Some [(Examples.Y, CFn 3)]) empty_world
              (fst (make_injector [Examples.x_set] (Some [(Examples.Y, CFn 3)]) empty_world)) 0
              ltac:(intros l [= <-]; repeat constructor; simpl; tauto)
              ltac:(vm_compute; reflexivity))
    as (_ & _ & _ & t & Ht & _ & _ & Hi & Hk).
  exists t; split; [exact Ht|split; [exact Hi|]].
  exact (Hk Examples.Y ltac:(discriminate)).
Defined.

(** X3: when several provider sets passed to [make_injector] provide one
    interface other than [Injector], the entry comes from the last of them that provides it
    (unless [local_providers] has the interface): a method of one of its
    providers listing the interface, bound to that provider set. *)
Theorem make_injector_later_set_wins pre ps post lp w w' c t k impl :
  make_injector (pre ++ ps :: post) lp w = (w', Ok c) -> nth_error (injectors w') c = Some t ->
  (forall l, lp = Some l -> NoDup (map fst l) /\ dget obj_eq_dec l k = None) -> k <> Injector ->
  In impl (ps_providers ps) -> In k (provider_interfaces impl) ->
  (forall ps' impl', In ps' post -> In impl' (ps_providers ps') -> ~ In k (provider_interfaces impl')) ->
  exists impl', In impl' (ps_providers ps) /\ In k (provider_interfaces impl') /\
    dget obj_eq_dec (providers t) k = Some (CMethod (impl_fn impl') (ps_self ps)).
Proof.
  intros Hr Ht Hl Hk Hi Hki Hpost.
  destruct (make_injector_new _ lp w w' c Hr) as [-> ->].
  cbn [injectors] in Ht; rewrite nth_error_last in Ht; injection Ht as <-; cbn [providers].
  rewrite init_table_lookup; [|exact Hk|intros l E; exact (proj1 (Hl l E))].
  replace (match lp with Some l => dget obj_eq_dec l k | None => None end) with (@None callable)
    by (destruct lp as [l|]; [symmetry; exact (proj2 (Hl l eq_refl))|reflexivity]).
  apply sets_table_last; [exists impl; auto|].
  intros (ps' & Hps' & impl' & Hi' & Hk'); exact (Hpost ps' impl' Hps' Hi' Hk').
Qed.

(** Witness: two provider sets that both provide [X], with functions [2]
    and [3]; the second wins. *)
Lemma make_injector_later_set_wins_witness :
  let sets := [mkProviderSet (OInst 16 106) [mkProviderImpl 2 [Examples.X] []]; Examples.x_set] in
  exists t, nth_error (injectors (fst (make_injector sets None empty_world))) 0 = Some t /\
    dget obj_eq_dec (providers t) Examples.X = Some (CMethod 3 (OInst 15 105)).
Proof.
  intros sets.
  destruct (nth_error (injectors (fst (make_injector sets None empty_world))) 0) as [t|] eqn:Ht;
    [|vm_compute in Ht; discriminate].
  destruct (make_injector_later_set_wins [mkProviderSet (OInst 16 106) [mkProviderImpl 2 [Examples.X] []]]
              Examples.x_set [] None empty_world (fst (make_injector sets None empty_world)) 0 t
              Examples.X (mkProviderImpl 3 [Examples.X] [])
              ltac:(vm_compute; reflexivity) Ht ltac:(intros l [=]) ltac:(discriminate)
              ltac:(left; reflexivity) ltac:(left; reflexivity) ltac:(intros ps' impl' [])) 
    as (impl' & Hi' & _ & E).
  exists t; split; [reflexivity|].
  destruct Hi' as [<-|[]]; exact E.
Defined.

(** X4: [make_injector] declares, on the application, each provider's
    [provider_dependencies] under the provider's plain function -- the key
    [bind] looks up ([im_func]) for the bound method the table holds --
    and leaves the declared dependencies of every other callable as they
    were.  (A function's two attributes are one per function, whatever
    provider set lists it.) *)
Theorem make_injector_registers_providers sets lp w w' c :
  (forall ps1 ps2 i1 i2, In ps1 sets -> In ps2 sets -> In i1 (ps_providers ps1) ->
     In i2 (ps_providers ps2) -> impl_fn i1 = impl_fn i2 ->
     provider_dependencies i1 = provider_dependencies i2) ->
  make_injector sets lp w = (w', Ok c) ->
  (forall ps impl, In ps sets -> In impl (ps_providers ps) ->
     reg_get w' (lookup_func_of (CMethod (impl_fn impl) (ps_self ps))) =
       Some (provider_dependencies impl)) /\
  (forall k, (forall ps impl, In ps sets -> In impl (ps_providers ps) -> k <> CFn (impl_fn impl)) ->
     reg_get w' k = reg_get w k).
Proof.
  intros Hc Hr; destruct (make_injector_new sets lp w w' c Hr) as [_ ->].
  unfold reg_get; cbn [dependency_map lookup_func_of]; split.
  - intros ps impl Hps Hi; apply reg_fold_some.
    + exists impl; split; [apply in_flat_map; eauto|reflexivity].
    + intros i' Hi' Hf; apply in_flat_map in Hi' as (ps' & Hps' & Hi').
      exact (Hc ps' ps i' impl Hps' Hps Hi' Hi Hf).
  - intros k Hk; apply reg_fold_none.
    intros i Hi; apply in_flat_map in Hi as (ps & Hps & Hi); eauto.
Qed.

(** Witness: a provider set whose provider [3] provides [X] and depends
    on [y: Y]. *)
Lemma make_injector_registers_providers_witness :
  let ps := mkProviderSet (OInst 15 105) [mkProviderImpl 3 [Examples.X] [("y"%string, Examples.Y)]] in
  reg_get (fst (make_injector [ps] None empty_world)) (CFn 3) = Some [("y"%string, Examples.Y)].
Proof.
  intros ps.
  destruct (make_injector_registers_providers [ps] None empty_world
              (fst (make_injector [ps] None empty_world)) 0
              ltac:(intros ps1 ps2 i1 i2 [<-|[]] [<-|[]] [<-|[]] [<-|[]] _; reflexivity)
              ltac:(vm_compute; reflexivity)) as [H _].
  exact (H ps (mkProviderImpl 3 [Examples.X] [("y"%string, Examples.Y)])
           ltac:(left; reflexivity) ltac:(left; reflexivity)).
Defined.


Ltac set_nth_hit :=
  match goal with
  | |- context [nth_error (set_nth ?l ?k ?x) ?k] =>
      rewrite (nth_error_set_nth_eq l k x) by (rewrite ?length_set_nth; assumption)
  end.

Section BindExtras.
Variable run_fn : nat -> list value -> kwargs -> option value.

(** X5: a [bind] on injector [i] -- whatever it returns or raises --
    leaves every other injector as it was, never changes [i]'s provider
    table, keeps every memo entry [i] had, and never changes the declared
    dependencies of a callable that existed before the call; provided
    the provider functions it calls do not call the library themselves
    (the provider functions are those of [run_fn]). *)
Theorem bind_effects fuel i f w w' r :
  reachable run_fn empty_world w -> exists_in w f -> bind run_fn fuel i f w = (w', r) ->
  length (injectors w') = length (injectors w) /\
  (forall j, j <> i -> nth_error (injectors w') j = nth_error (injectors w) j) /\
  (forall s, nth_error (injectors w) i = Some s ->
     exists s', nth_error (injectors w') i = Some s' /\ providers s' = providers s /\
       (forall k b, memo_get s k = Some b -> memo_get s' k = Some b)) /\
  (forall k, exists_in w k -> reg_get w' k = reg_get w k).
Proof.
  intros R Hf Hr.
  destruct (reachable_from_empty run_fn w R) as [W _].
  destruct (bind_frame run_fn fuel i f w w' r Hr W Hf) as (S & _ & _).
  pose proof S as (L & O & I & _).
  split; [exact L|split; [exact O|split]].
  - intros s Hs; destruct (I s Hs) as (s' & Hs' & P & _ & Mm); eauto.
  - intros k Hk; exact (reg_get_Step i w w' k S Hk).
Qed.


(** X7: a [bind] that returns leaves the set of callables being bound
    ([currently_binding]) of its injector exactly as it found it, nested
    binds of providers included; provided the provider functions it calls
    do not call the library themselves (the provider functions are those
    of [run_fn]). *)
Theorem bind_restores_resolving fuel i f w w' a s :
  bind run_fn fuel i f w = (w', Ok a) -> nth_error (injectors w) i = Some s ->
  exists s', nth_error (injectors w') i = Some s' /\ currently_binding s' = currently_binding s.
Proof.
  intros Hr Hs; destruct (bind_cb run_fn fuel i f w w' a Hr s Hs) as (s' & Hs' & E & _); eauto.
Qed.

(** X8: along any sequence of calls of the library, the provider table of
    an existing injector never changes and none of its memo entries is
    ever dropped or replaced. *)
Theorem injector_table_fixed w w' j s :
  reachable run_fn empty_world w -> reachable run_fn w w' ->
  nth_error (injectors w) j = Some s ->
  exists s', nth_error (injectors w') j = Some s' /\ providers s' = providers s /\
    (forall k b, memo_get s k = Some b -> memo_get s' k = Some b).
Proof.
  intros R R' Hs.
  destruct (reachable_from_empty run_fn w R) as [W _].
  destruct (reachable_wf run_fn w w' R' W) as [_ K].
  destruct (K j s Hs) as (s' & Hs' & P & _ & Mm); eauto.
Qed.

(** X9: binding a callable that the injector has not memoised and is not
    binding, with no declared dependencies (no entry in [dependency_map],
    so [EMPTY_DEPS], or an empty mapping), succeeds when the callable can
    be a key of the [WeakKeyDictionary] (a function, a bound method, a
    [functools.partial] object -- every callable of this model): the
    artifact is a new [functools.partial(func)] with no keywords,
    memoised for [func]; the dependency map is unchanged, nothing else of
    the injector but its memo and its allocated partial objects changes,
    and its set of callables being bound is as before. *)
Theorem bind_undeclared fuel i f w s :
  nth_error (injectors w) i = Some s -> memo_get s f = None ->
  ~ In (lookup_func_of f) (currently_binding s) ->
  reg_get w (lookup_func_of f) = None \/ reg_get w (lookup_func_of f) = Some [] ->
  exists s', bind run_fn (S fuel) i f w =
      (mkWorld (dependency_map w) (set_nth (injectors w) i s'),
       Ok (CPartial i (length (partials s)))) /\
    providers s' = providers s /\ currently_binding s' = currently_binding s /\
    partials s' = partials s ++ [(f, [])] /\
    bound_funcs s' = dset callable_eq_dec (bound_funcs s) f (CPartial i (length (partials s))).
Proof.
  intros Hs Hm Hnin Hds.
  assert (Hc : callable_memb (lookup_func_of f) (currently_binding s) = false).
  { destruct (callable_memb _ _) eqn:E; auto; apply callable_memb_In in E; contradiction. }
  assert (Hlt : i < length (injectors w)) by (apply nth_error_Some; congruence).
  exists (mkInjector (providers s)
            (remove callable_eq_dec (lookup_func_of f)
               (set_add (lookup_func_of f) (currently_binding s)))
            (dset callable_eq_dec (bound_funcs s) f (CPartial i (length (partials s))))
            (partials s ++ [(f, [])])).
  split; [|split; [|split; [|split]]].
  - simpl; unfold mbind, get_inj; rewrite Hs.
    fold (memo_get s f); rewrite Hm, Hc.
    unfold modify_inj; rewrite Hs; cbn.
    unfold get_world; cbn.
    fold (reg_get w (lookup_func_of f)).
    replace (match reg_get w (lookup_func_of f) with Some d => d | None => [] end) with (@nil (string * obj))
      by (destruct Hds as [-> | ->]; reflexivity).
    cbn; unfold ret, get_inj; cbn.
    set_nth_hit; cbn.
    unfold set_add; rewrite Hc.
    repeat first
      [ set_nth_hit
      | match goal with
        | |- context [callable_eq_dec ?a ?a] =>
            destruct (callable_eq_dec a a) as [_|]; [|congruence]
        end
      | progress unfold modify_inj, new_partial, ret, get_inj
      | progress cbn ].
    rewrite !set_nth_set_nth; reflexivity.
  - reflexivity.
  - cbn; unfold set_add; rewrite Hc; cbn.
    destruct (callable_eq_dec (lookup_func_of f) (lookup_func_of f)); [|congruence].
    now apply notin_remove.
  - reflexivity.
  - reflexivity.
Qed.
End BindExtras.


Section BindNoSpec.
Variable run_fn : nat -> list value -> kwargs -> option value.

(** X10: when every declared dependency of [func] has a provider in the
    injector's table, [bind] declares no dependencies on the artifact it
    returns (the [if len(unprovided) > 0] of line 181): the application
    has no entry for the artifact. *)
Theorem bind_all_provided_no_spec fuel i f w w' a s ds :
  reachable run_fn empty_world w -> exists_in w f ->
  nth_error (injectors w) i = Some s -> memo_get s f = None ->
  ~ In (lookup_func_of f) (currently_binding s) ->
  reg_get w (lookup_func_of f) = Some ds -> NoDup (map fst ds) ->
  (forall name x, In (name, x) ds -> find_provider (providers s) x <> None) ->
  bind run_fn (S fuel) i f w = (w', Ok a) ->
  reg_get w' a = None.
Proof.
  intros R Hf Hs Hm Hnin Hds Hnd Hall Hr.
  exact (bind_all_provided_reg run_fn fuel i f w w' a s ds
           (proj1 (reachable_from_empty run_fn w R)) Hf Hs Hm Hnin Hds Hnd Hall Hr).
Qed.
End BindNoSpec.

(** Witness: on the injector made with [local_providers={X: ..., Y: ...}]
    [f] (declared on [a: X, b: Y]) is fully bound, and nothing is
    declared on its artifact. *)
Lemma bind_all_provided_no_spec_witness :
  let w := fst (make_injector [] (Some [(Examples.X, CFn 2); (Examples.Y, CFn 3)])
                  (fst (dependencies [CFn 1] Examples.f_deps empty_world))) in
  reachable Examples.ex_fns empty_world w /\
  reg_get (fst (bind Examples.ex_fns 5 0 (CFn 1) w)) (CPartial 0 2) = None.
Proof.
  intros w.
  assert (R : reachable Examples.ex_fns empty_world w).
  { apply (reach_step _ _ (OpDependencies [CFn 1] Examples.f_deps)); [repeat constructor|].
    apply (reach_step _ _ (OpMakeInjector [] (Some [(Examples.X, CFn 2); (Examples.Y, CFn 3)]))).
    { intros l k p [= <-] [[= <- <-]|[[= <- <-]|[]]]; exact I. }
    apply reach_refl. }
  split; [exact R|].
  destruct (nth_error (injectors w) 0) as [s|] eqn:Hs; [|vm_compute in Hs; discriminate].
  apply (bind_all_provided_no_spec Examples.ex_fns 4 0 (CFn 1) w
           (fst (bind Examples.ex_fns 5 0 (CFn 1) w)) (CPartial 0 2) s Examples.f_deps R I Hs).
  - vm_compute in Hs; injection Hs as <-; vm_compute; reflexivity.
  - vm_compute in Hs; injection Hs as <-; simpl; tauto.
  - vm_compute; reflexivity.
  - repeat constructor; simpl; intuition discriminate.
  - vm_compute in Hs; injection Hs as <-.
    intros name x [[= <- <-]|[[= <- <-]|[]]]; vm_compute; discriminate.
  - vm_compute; reflexivity.
Defined.


Definition memo_inv (i : nat) (w w' : world) : Prop :=
  forall s, nth_error (injectors w) i = Some s ->
    exists s', nth_error (injectors w') i = Some s' /\
      incl (currently_binding s) (currently_binding s') /\
      (forall k, memo_get s k = None -> In (lookup_func_of k) (currently_binding s) ->
                 memo_get s' k = None).

Lemma memo_inv_refl i w : memo_inv i w w.
Proof. intros s Hs; exists s; repeat split; auto. intros x; auto. Qed.

Lemma memo_inv_trans i w1 w2 w3 : memo_inv i w1 w2 -> memo_inv i w2 w3 -> memo_inv i w1 w3.
Proof.
  intros C1 C2 s Hs; destruct (C1 s Hs) as (s2 & Hs2 & E2 & M2).
  destruct (C2 s2 Hs2) as (s3 & Hs3 & E3 & M3).
  exists s3; split; auto; split; [intros x Hx; auto|].
  intros k Hk Hin; apply M3; auto.
Qed.

Lemma cb_inv_memo_inv i w w' : cb_inv i w w' -> memo_inv i w w'.
Proof.
  intros C s Hs; destruct (C s Hs) as (s' & Hs' & E & Mm).
  exists s'; repeat split; auto. rewrite E; intros x; auto.
Qed.

Section MemoInv.
Variable run_fn : nat -> list value -> kwargs -> option value.

Lemma resolve_memo fuel bindf i ds kw unp w w' r :
  (forall p w w' b, bindf p w = (w', b) -> memo_inv i w w') ->
  resolve_deps run_fn fuel bindf i ds kw unp w = (w', r) -> memo_inv i w w'.
Proof.
  intros HB; revert kw unp w; induction ds as [|[n x] ds IH]; intros kw unp w Hr; simpl in Hr.
  - injection Hr as <- _; apply memo_inv_refl.
  - unfold mbind, get_inj in Hr.
    destruct (nth_error (injectors w) i) as [s|]; [|injection Hr as <- _; apply memo_inv_refl].
    destruct (find_provider (providers s) x) as [p|]; [|eapply IH; eauto].
    destruct (bindf p w) as [w1 [b|e]] eqn:Hb; [|injection Hr as <- _; eapply HB; eauto].
    unfold invoke in Hr; destruct (call_fuel run_fn fuel w1 b [VObj x] []).
    + eapply memo_inv_trans; [eapply HB; eauto|eapply IH; eauto].
    + injection Hr as <- _; eapply HB; eauto.
Qed.

Lemma bind_raise_memo fuel i f w w' e :
  bind run_fn fuel i f w = (w', Raise e) ->
  memo_inv i w w' /\
  (forall s, nth_error (injectors w) i = Some s ->
     exists s', nth_error (injectors w') i = Some s' /\ memo_get s' f = None).
Proof.
  revert f w w' e; induction fuel as [|fuel IH]; intros f w w' e Hr.
  - simpl in Hr; unfold mbind, get_inj in Hr.
    destruct (nth_error (injectors w) i) as [s|] eqn:Hs;
      [|injection Hr as <- _; split; [apply memo_inv_refl|congruence]].
    fold (memo_get s f) in Hr.
    destruct (memo_get s f) eqn:Hm; [discriminate|].
    injection Hr as E _; subst w'; split; [apply memo_inv_refl|].
    intros t Ht; try rewrite Hs in Ht; injection Ht as <-; eauto.
  - simpl in Hr; unfold mbind, get_inj in Hr.
    destruct (nth_error (injectors w) i) as [s|] eqn:Hs;
      [|injection Hr as <- _; split; [apply memo_inv_refl|congruence]].
    fold (memo_get s f) in Hr.
    destruct (memo_get s f) eqn:Hm; [discriminate|].
    destruct (callable_memb (lookup_func_of f) (currently_binding s)) eqn:Hc.
    { assert (w' = w) as -> by (unfold raise in Hr; destruct (py_join _ _); congruence).
      split; [apply memo_inv_refl|].
      intros t Ht; try rewrite Hs in Ht; injection Ht as <-; eauto. }
    assert (Hnin : ~ In (lookup_func_of f) (currently_binding s)).
    { rewrite <- callable_memb_In; congruence. }
    unfold modify_inj in Hr; rewrite Hs in Hr; simpl in Hr.
    set (sa := with_binding s (set_add (lookup_func_of f) (currently_binding s))) in *.
    set (w1 := mkWorld _ (set_nth _ i sa)) in *.
    assert (Hs1 : nth_error (injectors w1) i = Some sa)
      by (apply nth_error_set_nth_eq, nth_error_Some; congruence).
    assert (M01 : memo_inv i w w1).
    { intros t Ht; try rewrite Hs in Ht; injection Ht as <-; exists sa; split; [exact Hs1|].
      split; [intros x Hx; unfold sa, with_binding, set_add; simpl; rewrite Hc; right; auto|].
      intros k Hk _; exact Hk. }
    assert (Hrec : forall p w w' b, bind run_fn fuel i p w = (w', b) -> memo_inv i w w').
    { intros p u u' [b|e'] Hb; [eapply cb_inv_memo_inv, bind_cb; eauto|eapply IH; eauto]. }
    match goal with Hr : context [resolve_deps ?a1 ?a2 ?a3 ?a4 ?a5 ?a6 ?a7 ?a8] |- _ =>
      destruct (resolve_deps a1 a2 a3 a4 a5 a6 a7 a8) as [w2 r2] eqn:Hres end.
    pose proof (resolve_memo _ _ _ _ _ _ _ _ _ Hrec Hres) as M12.
    assert (Hf2 : forall t, nth_error (injectors w) i = Some t ->
              exists s2, nth_error (injectors w2) i = Some s2 /\ memo_get s2 f = None).
    { intros t Ht; try rewrite Hs in Ht; injection Ht as <-.
      destruct (M12 sa Hs1) as (s2 & Hs2 & _ & Mm); exists s2; split; [exact Hs2|].
      apply Mm; [exact Hm|unfold sa, with_binding, set_add; simpl; rewrite Hc; left; auto]. }
    assert (Fin : w' = w2 -> memo_inv i w w' /\
              (forall t, nth_error (injectors w) i = Some t ->
                 exists s', nth_error (injectors w') i = Some s' /\ memo_get s' f = None)).
    { intros ->; split; [eapply memo_inv_trans; eauto|exact Hf2]. }
    destruct r2 as [[kw unp]|e2]; [|injection Hr as <- _; destruct (Fin eq_refl) as [FA FB]; split; [exact FA|intros t Ht; injection Ht as <-; exact (FB s Hs)]].
    destruct (nth_error (injectors w2) i) as [s2|] eqn:Hs2; [|injection Hr as <- _; destruct (Fin eq_refl) as [FA FB]; split; [exact FA|intros t Ht; injection Ht as <-; exact (FB s Hs)]].
    destruct (callable_memb (lookup_func_of f) (currently_binding s2)) eqn:Hc2;
      [|injection Hr as <- _; destruct (Fin eq_refl) as [FA FB]; split; [exact FA|intros t Ht; injection Ht as <-; exact (FB s Hs)]].
    rewrite Hs2 in Hr; simpl in Hr.
    assert (Hlt : i < length (injectors w2)) by (apply nth_error_Some; congruence).
    unfold new_partial in Hr; simpl in Hr.
    rewrite nth_error_set_nth_eq in Hr by auto. simpl in Hr.
    destruct (0 <? length unp); simpl in Hr;
      rewrite nth_error_set_nth_eq in Hr by (rewrite ?length_set_nth; auto); simpl in Hr; try discriminate.
Qed.

End MemoInv.

(** X11: a [bind] of [func] that raises -- a provider that raises, a
    cycle check, a nested [bind] that fails -- stores nothing in the
    memo of its injector for [func]: the memo entry is written only on the
    last line before [return]. *)
Theorem failed_bind_not_memoized run_fn fuel i f w w' e s :
  nth_error (injectors w) i = Some s ->
  bind run_fn fuel i f w = (w', Raise e) ->
  exists s', nth_error (injectors w') i = Some s' /\ memo_get s' f = None.
Proof.
  intros Hs Hr; exact (proj2 (bind_raise_memo run_fn fuel i f w w' e Hr) s Hs).
Qed.

(** Witness: binding [f] on the injector of the example keeps the number
    of injectors and their provider table. *)
Lemma bind_effects_witness :
  reachable Examples.ex_fns empty_world Examples.xy_world /\
  exists s', nth_error (injectors (fst (bind Examples.ex_fns 5 0 (CFn 1) Examples.xy_world))) 0 = Some s' /\
    providers s' = providers Examples.xy_injector.
Proof.
  split; [exact xy_world_reachable|].
  destruct (bind_effects Examples.ex_fns 5 0 (CFn 1) Examples.xy_world _ _ xy_world_reachable I
              (surjective_pairing _)) as (_ & _ & HI & _).
  destruct (HI Examples.xy_injector ltac:(vm_compute; reflexivity)) as (s' & Hs' & P & _); eauto.
Defined.


(** Witness: after binding [f] on the injector of the example, nothing is
    being bound any more. *)
Lemma bind_restores_resolving_witness :
  exists s', nth_error (injectors (fst (bind Examples.ex_fns 5 0 (CFn 1) Examples.xy_world))) 0 = Some s' /\
    currently_binding s' = [].
Proof.
  exact (bind_restores_resolving Examples.ex_fns 5 0 (CFn 1) Examples.xy_world _ (CPartial 0 1)
           Examples.xy_injector ltac:(vm_compute; reflexivity) ltac:(vm_compute; reflexivity)).
Defined.

(** Witness: binding [f] and then specializing the injector of the example
    leaves its provider table as it was. *)
Lemma injector_table_fixed_witness :
  let w' := fst (specialize 0 [Examples.x_set] None
                   (fst (bind Examples.ex_fns 5 0 (CFn 1) Examples.xy_world))) in
  exists s', nth_error (injectors w') 0 = Some s' /\ providers s' = providers Examples.xy_injector.
Proof.
  intros w'.
  destruct (injector_table_fixed Examples.ex_fns Examples.xy_world w' 0 Examples.xy_injector
              xy_world_reachable) as (s' & Hs' & P & _).
  - apply (reach_step _ _ (OpBind 5 0 (CFn 1))); [exact I|].
    apply (reach_step _ _ (OpSpecialize 0 [Examples.x_set] None)); [intros l k p [=]|].
    apply reach_refl.
  - vm_compute; reflexivity.
  - eauto.
Defined.

(** Witness: on an injector made with no argument, binding [o1.m] (no
    declared dependencies) gives the partial object number [0]. *)
Lemma bind_undeclared_witness :
  exists w' s', bind Examples.ex_fns 3 0 (CMethod 2 Examples.O1) Examples.root_world =
    (w', Ok (CPartial 0 0)) /\ partials s' = [(CMethod 2 Examples.O1, [])].
Proof.
  destruct (bind_undeclared Examples.ex_fns 2 0 (CMethod 2 Examples.O1) Examples.root_world
              (mkInjector [(Injector, CSelfProv 0)] [] [] [])
              ltac:(vm_compute; reflexivity) ltac:(vm_compute; reflexivity)
              ltac:(simpl; tauto) ltac:(left; vm_compute; reflexivity))
    as (s' & Hb & _ & _ & Hp & _).
  exists (mkWorld (dependency_map Examples.root_world)
            (set_nth (injectors Examples.root_world) 0 s')), s'.
  split; [exact Hb|exact Hp].
Defined.

(** Witness: [f] depends on [a: X] and [X]'s provider raises; the failed
    [bind] memoises nothing for [f]. *)
Lemma failed_bind_not_memoized_witness :
  exists s', nth_error (injectors (fst (bind Examples.ex_fns 5 0 (CFn 1) Examples.failing_world))) 0 = Some s' /\
    memo_get s' (CFn 1) = None.
Proof.
  destruct (nth_error (injectors Examples.failing_world) 0) as [s|] eqn:Hs;
    [|vm_compute in Hs; discriminate].
  exact (failed_bind_not_memoized Examples.ex_fns 5 0 (CFn 1) Examples.failing_world _ CallFailed s
           Hs ltac:(vm_compute; reflexivity)).
Defined.
